(** * ca-mera: the Game Boy Camera pipeline of [src/gbcProcessor.js]

    A shallow embedding of the image pipeline ([processFrame] and its
    stages), of the palette registry of [src/palettes.js], and the
    properties of the specification proved about them.

    JavaScript numbers are IEEE-754 binary64 values: they are modelled by
    Rocq's primitive floats, so every arithmetic step below rounds exactly
    as the program does.  An [ImageData] buffer is a [Uint8ClampedArray]:
    a fixed-length array of bytes, modelled as a [list Z] updated by index
    (an out-of-range write does nothing, an out-of-range read is
    [undefined], which arithmetic turns into NaN). *)

From Stdlib Require Import ZArith ZifyNat QArith Ascii String PrimFloat FloatOps FloatAxioms SpecFloat Uint63.
From stdpp Require Import list strings pretty gmap.

#[local] Set Warnings "-inexact-float".
#[local] Open Scope float_scope.

(** ** JavaScript numbers *)

Module Js.

(** The number read from a typed-array cell holding the integer [z]. *)
Definition of_Z (z : Z) : float :=
  if (z <? 0)%Z then - of_uint63 (Uint63.of_Z (- z)) else of_uint63 (Uint63.of_Z z).

(** The integer nearest to [m * 2 ^ e], a tie going to the even neighbour. *)
Definition round_half_even (m e : Z) : Z :=
  if (0 <=? e)%Z then (m * 2 ^ e)%Z
  else
    let d := (2 ^ (- e))%Z in
    let f := (m / d)%Z in
    let r := (m mod d)%Z in
    if (2 * r <? d)%Z then f
    else if (d <? 2 * r)%Z then (f + 1)%Z
    else if Z.even f then f else (f + 1)%Z.

(** ECMAScript [ToUint8Clamp], the conversion applied by every store into
    a [Uint8ClampedArray]: NaN gives 0, the value is clamped to [0, 255]
    and rounded to the nearest integer, ties to even. *)
Definition ToUint8Clamp (x : float) : Z :=
  match Prim2SF x with
  | S754_finite false m e => Z.min 255 (round_half_even (Z.pos m) e)
  | S754_infinity false => 255
  | _ => 0
  end.

(** The same conversion for a value that is already an integer. *)
Definition clamp_byte (z : Z) : Z := Z.max 0 (Z.min 255 z).

Definition is_neg_zero (x : float) : bool :=
  match classify x with FloatClass.NZero => true | _ => false end.

(** [Math.min] and [Math.max] on two arguments: NaN is contagious and
    [-0] is smaller than [+0]. *)
Definition Math_min (a b : float) : float :=
  if is_nan a || is_nan b then nan
  else if a <? b then a
  else if b <? a then b
  else if is_neg_zero a then a else b.

Definition Math_max (a b : float) : float :=
  if is_nan a || is_nan b then nan
  else if a <? b then b
  else if b <? a then a
  else if is_neg_zero a then b else a.

End Js.

(** ** Image buffers *)

Record ImageData := mkImageData {
  width : nat;
  height : nat;
  data : list Z
}.

Definition is_byte (v : Z) : bool := (0 <=? v)%Z && (v <? 256)%Z.

(** The invariant every browser [ImageData] satisfies: [4 * width * height]
    cells, each a byte. *)
Definition wf_image (img : ImageData) : bool :=
  (length (data img) =? 4 * (width img * height img))%nat
  && forallb is_byte (data img).

(** [d[i]] used as a number. *)
Definition get (d : list Z) (i : nat) : float :=
  match d !! i with
  | Some v => Js.of_Z v
  | None => nan
  end.

(** [d[i] = v] for a number [v]. *)
Definition put (i : nat) (v : float) (d : list Z) : list Z :=
  <[i := Js.ToUint8Clamp v]> d.

(** Offset of pixel [(x, y)] in a buffer of the given width. *)
Definition offset (w x y : nat) : nat := ((y * w + x) * 4)%nat.

(** The four channels of pixel [(x, y)]. *)
Definition pixel (img : ImageData) (x y : nat) : option (Z * Z * Z * Z) :=
  let idx := offset (width img) x y in
  r ← data img !! idx;
  g ← data img !! (idx + 1)%nat;
  b ← data img !! (idx + 2)%nat;
  a ← data img !! (idx + 3)%nat;
  Some (r, g, b, a).

(** The start indexes visited by [for (let i = 0; i < len; i += 4)]. *)
Definition strided (len : nat) : list nat :=
  (λ k, 4 * k)%nat <$> seq 0 ((len + 3) / 4).

(** ** Tone stage *)

Definition toGrayscale_step (d : list Z) (i : nat) : list Z :=
  let lum := 0.299 * get d i + 0.587 * get d (i + 1) + 0.114 * get d (i + 2) in
  put i lum (put (i + 1) lum (put (i + 2) lum d)).

Definition toGrayscale (imageData : ImageData) : ImageData :=
  let d := data imageData in
  mkImageData (width imageData) (height imageData)
    (foldl toGrayscale_step d (strided (length d))).

Definition applyContrast_value (v factor : float) : float :=
  Js.Math_max 0 (Js.Math_min 255 (((v / 255 - 0.5) * factor + 0.5) * 255)).

Definition applyContrast_step (factor : float) (d : list Z) (i : nat) : list Z :=
  let v := applyContrast_value (get d i) factor in
  put i v (put (i + 1) v (put (i + 2) v d)).

Definition applyContrast (imageData : ImageData) (factor : float) : ImageData :=
  let d := data imageData in
  mkImageData (width imageData) (height imageData)
    (foldl (applyContrast_step factor) d (strided (length d))).

(** ** Exceptions *)

Inductive exception :=
| Error (message : string)   (* [throw new Error(message)] *)
| TypeError.                 (* raised by the engine itself *)

Definition result (A : Type) : Type := (exception + A)%type.

Definition bind_result {A B} (r : result A) (k : A → result B) : result B :=
  match r with
  | inl e => inl e
  | inr a => k a
  end.

Notation "'try' x := r 'in' k" := (bind_result r (λ x, k))
  (at level 10, x pattern, k at level 200).

(** A [for] loop whose body may throw: the first exception ends it. *)
Fixpoint for_each {A K} (body : A → K → result A) (a : A) (ks : list K) : result A :=
  match ks with
  | [] => inr a
  | k :: ks => try a' := body a k in for_each body a' ks
  end.

(** ** Edge enhancer *)

Definition EDGE_KERNEL : list float :=
  [ 0; -1;  0;
   -1;  5; -1;
    0; -1;  0].

Definition kernel_at (i : nat) : float := default nan (EDGE_KERNEL !! i).

(** The two inner loops of [edgeEnhance].  [ky] and [kx] run over -1, 0, 1
    in the source; here [j] and [i] stand for [ky + 1] and [kx + 1], which
    are also the row and the column of the kernel.  The caller has
    [1 <= y] and [1 <= x], so the subtraction on [nat] is exact. *)
Definition kernel_sum (original : list Z) (w x y : nat) : float :=
  foldl (λ sum j,
    foldl (λ sum i,
      let idx := (((y + j - 1) * w + (x + i - 1)) * 4)%nat in
      sum + get original idx * kernel_at (j * 3 + i))
    sum [0; 1; 2]%nat)
  0 [0; 1; 2]%nat.

Definition edgeEnhance_value (original : list Z) (strength : float) (w x y : nat) : float :=
  let sum := kernel_sum original w x y in
  let idx := offset w x y in
  let enhanced := get original idx * (1 - strength) + sum * strength in
  Js.Math_max 0 (Js.Math_min 255 enhanced).

Definition edgeEnhance_step (original : list Z) (strength : float) (w : nat)
    (d : list Z) (yx : nat * nat) : list Z :=
  let '(y, x) := yx in
  let idx := offset w x y in
  let v := edgeEnhance_value original strength w x y in
  put idx v (put (idx + 1) v (put (idx + 2) v d)).

Definition edgeEnhance (imageData : ImageData) (strength : float) : ImageData :=
  let w := width imageData in
  let h := height imageData in
  let original := data imageData in   (* [new Uint8ClampedArray(data)]: a copy *)
  mkImageData w h
    (foldl (λ d y,
       foldl (λ d x, edgeEnhance_step original strength w d (y, x)) d (seq 1 (w - 2)))
     (data imageData) (seq 1 (h - 2))).

(** ** Ditherer and palette mapper *)

Definition BAYER_4x4 : list (list float) :=
  [[ 0 / 16;  8 / 16;  2 / 16; 10 / 16];
   [12 / 16;  4 / 16; 14 / 16;  6 / 16];
   [ 3 / 16; 11 / 16;  1 / 16;  9 / 16];
   [15 / 16;  7 / 16; 13 / 16;  5 / 16]].

(** [BAYER_4x4[y % 4][x % 4]] *)
Definition bayer_at (y x : nat) : float :=
  default nan (row ← BAYER_4x4 !! (y mod 4)%nat; row !! (x mod 4)%nat).

Definition dither (v : float) (x y : nat) : float :=
  let gray := v / 255 in
  let threshold := bayer_at y x - 0.5 in
  let spread := 0.33 in
  gray + threshold * spread.

Definition quantize (dithered : float) : nat :=
  if dithered <? 0.25 then 0%nat
  else if dithered <? 0.5 then 1%nat
  else if dithered <? 0.75 then 2%nat
  else 3%nat.

Definition rgb : Type := (Z * Z * Z)%type.

(** The body of the loops of [ditherAndColorize].  Destructuring
    [paletteRgb[shade]] throws when the palette has no such entry. *)
Definition ditherAndColorize_step (paletteRgb : list rgb) (w : nat)
    (d : list Z) (yx : nat * nat) : result (list Z) :=
  let '(y, x) := yx in
  let idx := offset w x y in
  let shade := quantize (dither (get d idx) x y) in
  match paletteRgb !! shade with
  | None => inl TypeError
  | Some (r, g, b) =>
      inr (<[(idx + 3)%nat := 255%Z]>
            (<[(idx + 2)%nat := Js.clamp_byte b]>
              (<[(idx + 1)%nat := Js.clamp_byte g]>
                (<[idx := Js.clamp_byte r]> d))))
  end.

Definition ditherAndColorize (imageData : ImageData) (paletteRgb : list rgb)
    : result ImageData :=
  let w := width imageData in
  let h := height imageData in
  try d :=
    for_each (λ d y,
      for_each (λ d x, ditherAndColorize_step paletteRgb w d (y, x)) d (seq 0 w))
    (data imageData) (seq 0 h)
  in inr (mkImageData w h d).

(** ** Palettes ([src/palettes.js]) *)

Record palette := mkPalette {
  name : string;
  colors : list string
}.

(** The own properties of the [PALETTES] object. *)
Definition PALETTES : gmap string palette :=
  list_to_map
    [("classic",   mkPalette "Classic GB" ["#0f380f"; "#306230"; "#8bac0f"; "#9bbc0f"]);
     ("sunset",    mkPalette "Sunset"     ["#1a1034"; "#8b3a62"; "#e05a46"; "#f2d09e"]);
     ("amber",     mkPalette "Amber"      ["#1b1000"; "#6b4e00"; "#c8a800"; "#ffffff"]);
     ("teal",      mkPalette "Teal"       ["#0d1b0e"; "#1a5c2a"; "#3cb460"; "#9fffb0"]);
     ("noir",      mkPalette "Noir"       ["#000000"; "#555555"; "#aaaaaa"; "#ffffff"]);
     ("vaporwave", mkPalette "Vapor"      ["#2b0040"; "#8000a0"; "#ff6090"; "#ffcc80"])].

(** [PALETTES] is an object literal, so its prototype is [Object.prototype]
    and a property read that finds no own property continues there.  These
    are the properties of [Object.prototype] in a browser; each is a
    function or an object, hence truthy, and none has a [colors] property. *)
Definition Object_prototype_keys : list string :=
  ["constructor"; "hasOwnProperty"; "isPrototypeOf"; "propertyIsEnumerable";
   "toLocaleString"; "toString"; "valueOf"; "__proto__";
   "__defineGetter__"; "__defineSetter__"; "__lookupGetter__"; "__lookupSetter__"].

Inductive property :=
| Own (p : palette)   (* a registered palette *)
| Inherited           (* a member of [Object.prototype] *)
| Undefined.

(** [PALETTES[paletteKey]] *)
Definition PALETTES_get (paletteKey : string) : property :=
  match PALETTES !! paletteKey with
  | Some p => Own p
  | None =>
      if bool_decide (paletteKey ∈ Object_prototype_keys) then Inherited else Undefined
  end.

Definition hex_digit (c : ascii) : option Z :=
  let n := Z.of_N (N_of_ascii c) in
  if (48 <=? n)%Z && (n <=? 57)%Z then Some (n - 48)%Z
  else if (97 <=? n)%Z && (n <=? 102)%Z then Some (n - 87)%Z
  else if (65 <=? n)%Z && (n <=? 70)%Z then Some (n - 55)%Z
  else None.

(** The value of the longest prefix of hexadecimal digits, [None] when the
    prefix is empty. *)
Fixpoint hex_prefix (acc : option Z) (s : string) : option Z :=
  match s with
  | EmptyString => acc
  | String c s' =>
      match hex_digit c with
      | Some v => hex_prefix (Some (default 0 acc * 16 + v)%Z) s'
      | None => acc
      end
  end.

(** The white space and line terminators that [parseInt] skips
    (ECMAScript [StrWhiteSpaceChar]).  A string of the model is a sequence
    of code units below 256, one [ascii] each; among these the white space
    is TAB, LF, VT, FF, CR (9 to 13), SP (32) and NBSP (160).  The other
    members of the class (U+FEFF, U+2028, U+2029 and the space separators
    from U+1680 on) are code units of 256 or more, which no string of the
    model contains. *)
Definition is_whitespace (c : ascii) : bool :=
  let n := N_of_ascii c in
  (n =? 32)%N || ((9 <=? n)%N && (n <=? 13)%N) || (n =? 160)%N.

Fixpoint trim_start (s : string) : string :=
  match s with
  | String c s' => if is_whitespace c then trim_start s' else s
  | EmptyString => s
  end.

(** The Number nearest to a non-negative integer, [None] for Infinity. *)
Definition number_of_integer (z : Z) : option Z :=
  if (z <? 2 ^ 53)%Z then Some z
  else
    let k := (Z.log2 z - 52)%Z in
    let r := (Js.round_half_even z (- k) * 2 ^ k)%Z in
    if (r <? 2 ^ 1024)%Z then Some r else None.

(** [parseInt(s, 16)]; [None] stands for NaN and for the infinities, which
    the bitwise operators of [hexToRgb] all read as 0. *)
Definition parseInt16 (s : string) : option Z :=
  let s := trim_start s in
  let '(negative, s) :=
    match s with
    | String "-" s' => (true, s')
    | String "+" s' => (false, s')
    | _ => (false, s)
    end in
  let s :=
    match s with
    | String "0" (String "x" s') => s'
    | String "0" (String "X" s') => s'
    | _ => s
    end in
  n ← hex_prefix None s;
  n ← number_of_integer n;
  Some (if negative then (- n)%Z else n).

(** ECMAScript [ToInt32], applied by [>>] and [&] to their operands. *)
Definition ToInt32 (n : option Z) : Z :=
  match n with
  | None => 0
  | Some z =>
      let m := (z mod 2 ^ 32)%Z in
      if (2 ^ 31 <=? m)%Z then (m - 2 ^ 32)%Z else m
  end.

(** [hex.slice(1)] *)
Definition slice1 (s : string) : string :=
  match s with
  | String _ s' => s'
  | EmptyString => EmptyString
  end.

Definition hexToRgb (hex : string) : rgb :=
  let n := parseInt16 (slice1 hex) in
  (Z.land (Z.shiftr (ToInt32 n) 16) 255,
   Z.land (Z.shiftr (ToInt32 n) 8) 255,
   Z.land (ToInt32 n) 255).

Definition getPaletteRgb (paletteKey : string) : result (list rgb) :=
  match PALETTES_get paletteKey with
  | Undefined => inl (Error ("Unknown palette: " +:+ paletteKey))
  | Inherited => inl TypeError   (* [palette.colors] is undefined: [.map] throws *)
  | Own p => inr (hexToRgb <$> colors p)
  end.

(** ** Pipeline orchestrator and resampler *)

Definition GBC_WIDTH : nat := 128.
Definition GBC_HEIGHT : nat := 112.

(** The [options] argument of [processFrame]; [None] is an absent property. *)
Record Options := mkOptions {
  contrast : option float;
  edgeStrength : option float
}.

(** Objects on the JavaScript heap, by address. *)
Abbreviation heap := (gmap nat ImageData).

(** A new object, at an address not in use. *)
Definition alloc (h : heap) (img : ImageData) : nat * heap :=
  let l := fresh (dom h) in (l, <[l := img]> h).

Section pipeline.

(** The browser's canvas.  [canvas smoothing source dw dh] is the image
    read back by [getImageData(0, 0, dw, dh)] from a new [dw] by [dh]
    [OffscreenCanvas] after [drawImage(srcCanvas, 0, 0, dw, dh)], where
    [srcCanvas] is a new canvas of the size of [source] that received
    [putImageData(source, 0, 0)]; [smoothing] is the context's
    [imageSmoothingEnabled].  The resampling is the browser's. *)
Variable canvas : bool → ImageData → nat → nat → ImageData.

Definition downscale (source : ImageData) (targetW targetH : nat) : ImageData :=
  canvas true source targetW targetH.

Definition upscaleNearest (source : ImageData) (scale : nat) : ImageData :=
  let sw := width source in
  let sh := height source in
  let dw := (sw * scale)%nat in
  let dh := (sh * scale)%nat in
  canvas false source dw dh.

Definition processFrame (sourceImageData : ImageData) (paletteKey : string)
    (options : Options) : result ImageData :=
  let contrast := default 1.2 (contrast options) in
  let edgeStrength := default 0.3 (edgeStrength options) in
  try paletteRgb := getPaletteRgb paletteKey in
  let downscaled := downscale sourceImageData GBC_WIDTH GBC_HEIGHT in
  let gray := toGrayscale downscaled in
  let gray := applyContrast gray contrast in
  let gray := if 0 <? edgeStrength then edgeEnhance gray edgeStrength else gray in
  ditherAndColorize gray paletteRgb.

(** The pipeline with the Edge Enhancer stage left out. *)
Definition processFrame_without_edge (sourceImageData : ImageData)
    (paletteKey : string) (contrast : option float) : result ImageData :=
  let contrast := default 1.2 contrast in
  try paletteRgb := getPaletteRgb paletteKey in
  let downscaled := downscale sourceImageData GBC_WIDTH GBC_HEIGHT in
  let gray := toGrayscale downscaled in
  let gray := applyContrast gray contrast in
  ditherAndColorize gray paletteRgb.

(** [processFrame] with its objects on the heap: the argument is the
    address of the source image, every stage after [downscale] updates
    the object [gray] in place, and the call returns that address. *)
Definition processFrame_heap (h : heap) (sourceImageData : nat)
    (paletteKey : string) (options : Options) : result (nat * heap) :=
  let contrast := default 1.2 (contrast options) in
  let edgeStrength := default 0.3 (edgeStrength options) in
  try paletteRgb := getPaletteRgb paletteKey in
  match h !! sourceImageData with
  | None => inl TypeError
  | Some source =>
      let '(gray, h) := alloc h (downscale source GBC_WIDTH GBC_HEIGHT) in
      let h := alter toGrayscale gray h in
      let h := alter (λ img, applyContrast img contrast) gray h in
      let h :=
        if 0 <? edgeStrength
        then alter (λ img, edgeEnhance img edgeStrength) gray h
        else h in
      match h !! gray with
      | None => inl TypeError
      | Some img =>
          try img := ditherAndColorize img paletteRgb in
          inr (gray, <[gray := img]> h)
      end
  end.

End pipeline.

(** * Properties *)

(** ** Loops that update one pixel per iteration *)

Lemma lookup_put i v (d : list Z) j :
  put i v d !! j
  = if decide (i = j ∧ i < length d)%nat then Some (Js.ToUint8Clamp v) else d !! j.
Proof. apply list_lookup_insert. Qed.

Lemma length_put i v d : length (put i v d) = length d.
Proof. apply length_insert. Qed.

(** [d[i] = d[i + 1] = d[i + 2] = v] *)
Lemma lookup_put3 i v (d : list Z) j :
  put i v (put (i + 1) v (put (i + 2) v d)) !! j
  = if decide (i ≤ j < i + 3 ∧ j < length d)%nat
    then Some (Js.ToUint8Clamp v) else d !! j.
Proof.
  rewrite !lookup_put, !length_put.
  repeat case_decide; try done; lia.
Qed.

Section pixel_loop.
Context {K : Type} (pix : K → nat) (step : list Z → K → list Z).

(** An iteration touches only the four cells of its own pixel ... *)
Hypothesis step_frame : ∀ d k j, (j / 4)%nat ≠ pix k → step d k !! j = d !! j.
(** ... and what it writes there depends on those cells only. *)
Hypothesis step_local : ∀ d d' k j,
  (∀ j', (j' / 4)%nat = pix k → d !! j' = d' !! j') →
  (j / 4)%nat = pix k → step d k !! j = step d' k !! j.

Lemma foldl_pixel_other ks d j :
  (∀ k, k ∈ ks → pix k ≠ (j / 4)%nat) → foldl step d ks !! j = d !! j.
Proof.
  revert d. induction ks as [|k ks IH]; intros d Hks; [done|]. cbn.
  rewrite IH.
  - apply step_frame. intros E. apply (Hks k); [by left|done].
  - intros k' Hk'. apply Hks. by right.
Qed.

Lemma foldl_pixel_hit ks d k j :
  NoDup (pix <$> ks) → k ∈ ks → pix k = (j / 4)%nat →
  foldl step d ks !! j = step d k !! j.
Proof.
  revert d. induction ks as [|k0 ks IH]; intros d Hnd Hk Hj.
  { by apply elem_of_nil in Hk. }
  rewrite fmap_cons in Hnd. apply NoDup_cons in Hnd as [Hk0 Hnd]. cbn.
  apply elem_of_cons in Hk as [->|Hk].
  - apply foldl_pixel_other. intros k' Hk' E. apply Hk0.
    rewrite Hj, <- E. by apply list_elem_of_fmap_2.
  - rewrite IH by done. apply step_local; [|done].
    intros j' Hj'. apply step_frame. intros E. apply Hk0.
    rewrite <- E, Hj'. by apply list_elem_of_fmap_2.
Qed.

End pixel_loop.

(** The two nested loops over [y] and [x] as one loop over the pairs. *)
Definition grid (ys xs : list nat) : list (nat * nat) :=
  y ← ys; (λ x, (y, x)) <$> xs.

Lemma foldl_grid {A} (f : A → nat * nat → A) (a : A) ys xs :
  foldl (λ a y, foldl (λ a x, f a (y, x)) a xs) a ys = foldl f a (grid ys xs).
Proof.
  revert a. induction ys as [|y ys IH]; intros a; [done|].
  cbn. rewrite foldl_app, foldl_fmap. apply IH.
Qed.

Lemma elem_of_grid y x ys xs : (y, x) ∈ grid ys xs ↔ y ∈ ys ∧ x ∈ xs.
Proof.
  unfold grid. rewrite list_elem_of_bind. split.
  - intros (y' & Hin & Hy'). apply list_elem_of_fmap in Hin as (x' & [= -> ->] & Hx'). done.
  - intros [Hy Hx]. exists y. split; [|done]. by apply list_elem_of_fmap_2.
Qed.

(** The pixel numbers [y * w + x] of a grid inside the image are distinct. *)
Lemma NoDup_grid_pixels w ys xs :
  NoDup ys → NoDup xs → Forall (λ x, x < w)%nat xs →
  NoDup ((λ yx : nat * nat, yx.1 * w + yx.2)%nat <$> grid ys xs).
Proof.
  intros Hys Hxs Hw. apply NoDup_fmap_2_strong.
  - intros [y x] [y' x'] [_ Hx]%elem_of_grid [_ Hx']%elem_of_grid E. cbn in E.
    rewrite Forall_forall in Hw. apply Hw in Hx, Hx'.
    assert (y = y') by nia. subst. f_equal. lia.
  - unfold grid. apply NoDup_bind; [| |done].
    + intros y y' p _ _ Hp Hp'.
      apply list_elem_of_fmap in Hp as (? & -> & _).
      apply list_elem_of_fmap in Hp' as (? & [= -> _] & _). done.
    + intros y _. apply NoDup_fmap_2; [|done]. by intros ?? [=].
Qed.

#[local] Arguments Nat.mul : simpl never.
#[local] Arguments Nat.div : simpl never.
#[local] Arguments Nat.modulo : simpl never.

(** Linear arithmetic with division and remainder by constants. *)
Ltac dlia := zify; Z.to_euclidean_division_equations; lia.

Lemma strided_length n : strided (4 * n) = (λ k, 4 * k)%nat <$> seq 0 n.
Proof. unfold strided. do 2 f_equal. dlia. Qed.

(** ** The loops of the tone stage *)

Section channel_loop.

(** The value an iteration stores in the three colour channels. *)
Variable val : list Z → nat → float.
Hypothesis val_local : ∀ d d' k,
  (∀ j, (j / 4)%nat = k → d !! j = d' !! j) → val d (4 * k) = val d' (4 * k).

Definition rgb_step (d : list Z) (i : nat) : list Z :=
  put i (val d i) (put (i + 1) (val d i) (put (i + 2) (val d i) d)).

Lemma rgb_loop_lookup d n j :
  length d = (4 * n)%nat →
  foldl rgb_step d (strided (length d)) !! j
  = if decide (j < length d ∧ j mod 4 ≠ 3)%nat
    then Some (Js.ToUint8Clamp (val d (4 * (j / 4)))) else d !! j.
Proof.
  intros Hlen. rewrite Hlen at 1. rewrite strided_length, foldl_fmap.
  set (step := λ d k, rgb_step d (4 * k)).
  assert (Hframe : ∀ d k j, (j / 4)%nat ≠ id k → step d k !! j = d !! j).
  { intros d0 k j0 Hne. unfold step, rgb_step. rewrite lookup_put3.
    case_decide; [unfold id in Hne; dlia|done]. }
  assert (Hlocal : ∀ d d' k j,
    (∀ j', (j' / 4)%nat = id k → d !! j' = d' !! j') →
    (j / 4)%nat = id k → step d k !! j = step d' k !! j).
  { intros d0 d1 k j0 Hagree Hj0. unfold step, rgb_step. rewrite !lookup_put3.
    rewrite (val_local d0 d1 k) by done.
    specialize (Hagree j0 Hj0).
    assert (j0 < length d0 ↔ j0 < length d1)%nat
      by (rewrite <- !lookup_lt_is_Some, Hagree; done).
    repeat case_decide; try done; tauto. }
  destruct (decide (j < length d)%nat) as [Hj|Hj].
  - rewrite (foldl_pixel_hit id step Hframe Hlocal _ d (j / 4)%nat j).
    + unfold step, rgb_step. rewrite lookup_put3.
      repeat case_decide; try done; dlia.
    + rewrite list_fmap_id. apply NoDup_seq.
    + apply elem_of_seq. dlia.
    + done.
  - rewrite (foldl_pixel_other id step Hframe).
    + case_decide; [lia|done].
    + intros k Hk%elem_of_seq. unfold id. dlia.
Qed.

Lemma rgb_loop_length d ks : length (foldl rgb_step d ks) = length d.
Proof.
  revert d. induction ks as [|k ks IH]; intros d; [done|].
  cbn. rewrite IH. unfold rgb_step. by rewrite !length_put.
Qed.

End channel_loop.

Definition luminance (d : list Z) (i : nat) : float :=
  0.299 * get d i + 0.587 * get d (i + 1) + 0.114 * get d (i + 2).

Lemma get_agree d d' i : d !! i = d' !! i → get d i = get d' i.
Proof. unfold get. by intros ->. Qed.

Lemma toGrayscale_lookup img n j :
  length (data img) = (4 * n)%nat →
  data (toGrayscale img) !! j
  = if decide (j < length (data img) ∧ j mod 4 ≠ 3)%nat
    then Some (Js.ToUint8Clamp (luminance (data img) (4 * (j / 4))))
    else data img !! j.
Proof.
  intros Hlen. apply (rgb_loop_lookup luminance) with (n := n); [|done].
  intros d d' k Hagree. unfold luminance.
  rewrite !(get_agree d d') by (apply Hagree; dlia). done.
Qed.

Lemma applyContrast_lookup img factor n j :
  length (data img) = (4 * n)%nat →
  data (applyContrast img factor) !! j
  = if decide (j < length (data img) ∧ j mod 4 ≠ 3)%nat
    then Some (Js.ToUint8Clamp
                 (applyContrast_value (get (data img) (4 * (j / 4))) factor))
    else data img !! j.
Proof.
  intros Hlen.
  apply (rgb_loop_lookup (λ d i, applyContrast_value (get d i) factor))
    with (n := n); [|done].
  intros d d' k Hagree.
  rewrite (get_agree d d') by (apply Hagree; dlia). done.
Qed.

Lemma toGrayscale_length img : length (data (toGrayscale img)) = length (data img).
Proof. apply (rgb_loop_length luminance). Qed.

Lemma applyContrast_length img factor :
  length (data (applyContrast img factor)) = length (data img).
Proof. apply (rgb_loop_length (λ d i, applyContrast_value (get d i) factor)). Qed.

(** ** Well-formed images *)

Lemma wf_image_length img :
  wf_image img = true → length (data img) = (4 * (width img * height img))%nat.
Proof. unfold wf_image. intros [H _]%andb_prop. by apply Nat.eqb_eq. Qed.

Lemma wf_image_byte img j v :
  wf_image img = true → data img !! j = Some v → is_byte v = true.
Proof.
  unfold wf_image. intros [_ H]%andb_prop Hj.
  rewrite forallb_forall in H. apply H, list_elem_of_In.
  by eapply list_elem_of_lookup_2.
Qed.

(** A property of bytes checked on each of the 256 values. *)
Lemma all_bytes (P : Z → bool) :
  forallb P (seqZ 0 256) = true → ∀ v, is_byte v = true → P v = true.
Proof.
  intros H v Hv. rewrite forallb_forall in H. apply H, list_elem_of_In, elem_of_seqZ.
  unfold is_byte in Hv. apply andb_prop in Hv as [?%Z.leb_le ?%Z.ltb_lt]. lia.
Qed.

(** Every pixel of the buffer has equal red, green and blue channels. *)
Fixpoint gray_pixels (d : list Z) : bool :=
  match d with
  | r :: g :: b :: _ :: d' => (r =? g)%Z && (g =? b)%Z && gray_pixels d'
  | _ => true
  end.

Lemma gray_pixels_lookup d k r :
  gray_pixels d = true → (4 * k + 3 < length d)%nat → d !! (4 * k)%nat = Some r →
  d !! (4 * k + 1)%nat = Some r ∧ d !! (4 * k + 2)%nat = Some r.
Proof.
  revert d. induction k as [|k IH]; intros d Hg Hlen Hr.
  - destruct d as [|r0 [|g0 [|b0 [|a0 d']]]]; cbn in Hlen; try lia.
    cbn in Hg. apply andb_prop in Hg as [[->%Z.eqb_eq ->%Z.eqb_eq]%andb_prop _].
    cbn in Hr. by simplify_eq.
  - destruct d as [|r0 [|g0 [|b0 [|a0 d']]]]; cbn in Hlen; try lia.
    cbn in Hg. apply andb_prop in Hg as [_ Hg].
    replace (4 * S k)%nat with (S (S (S (S (4 * k))))) in * by lia.
    cbn in Hr |- *. apply IH; [done|lia|done].
Qed.

(** ** Contrast *)

Lemma contrast_one_byte v :
  is_byte v = true → Js.ToUint8Clamp (applyContrast_value (Js.of_Z v) 1) = v.
Proof.
  intros Hv. apply Z.eqb_eq.
  apply (all_bytes (λ v, Js.ToUint8Clamp (applyContrast_value (Js.of_Z v) 1) =? v)%Z);
    [by vm_compute|done].
Qed.

(** C8 (contrast identity): with factor 1.0 the value stored back for a
    byte [v] is [v] itself, so [applyContrast] leaves every grayscale image
    unchanged. *)
Theorem applyContrast_one_identity :
  (∀ v, is_byte v = true →
     Js.ToUint8Clamp (applyContrast_value (Js.of_Z v) 1) = v) ∧
  (∀ img, wf_image img = true → gray_pixels (data img) = true →
     applyContrast img 1 = img).
Proof.
  split; [exact contrast_one_byte|].
  intros [w h d] Hwf Hgray. pose proof (wf_image_length _ Hwf) as Hlen.
  cbn in Hgray, Hlen.
  change (applyContrast (mkImageData w h d) 1)
    with (mkImageData w h (data (applyContrast (mkImageData w h d) 1))).
  f_equal. apply list_eq. intros j.
  rewrite (applyContrast_lookup _ _ (w * h)) by done. cbn.
  case_decide as Hj; [|done]. destruct Hj as [Hj Hc].
  destruct (lookup_lt_is_Some_2 d (4 * (j / 4))) as [r Hr]; [dlia|].
  unfold get. rewrite Hr.
  rewrite contrast_one_byte by (by eapply (wf_image_byte _ _ _ Hwf)).
  destruct (gray_pixels_lookup d (j / 4) r) as [Hg Hb]; [done|dlia|done|].
  assert (j = 4 * (j / 4) ∨ j = 4 * (j / 4) + 1 ∨ j = 4 * (j / 4) + 2)%nat
    as [E|[E|E]] by dlia; rewrite E at 1; done.
Qed.

Lemma applyContrast_one_identity_witness :
  Js.ToUint8Clamp (applyContrast_value (Js.of_Z 200) 1) = 200%Z ∧
  applyContrast (mkImageData 2 1 [0; 0; 0; 255; 200; 200; 200; 17]%Z) 1
  = mkImageData 2 1 [0; 0; 0; 255; 200; 200; 200; 17]%Z.
Proof.
  split.
  - apply (proj1 applyContrast_one_identity). reflexivity.
  - apply (proj2 applyContrast_one_identity); reflexivity.
Defined.

(** ** Loops over the rows and columns *)

Lemma pixel_number_inj w y x y' x' :
  (x < w → x' < w → y * w + x = y' * w + x' → y = y' ∧ x = x')%nat.
Proof. intros Hx Hx' E. assert (y = y') by nia. subst. lia. Qed.

Lemma offset_div w x y c : (c < 4 → (offset w x y + c) / 4 = y * w + x)%nat.
Proof. unfold offset. intros Hc. dlia. Qed.

Section grid_loop.
Variable w : nat.
Variable step : list Z → nat * nat → list Z.

Hypothesis step_frame : ∀ d yx j,
  (j / 4)%nat ≠ (yx.1 * w + yx.2)%nat → step d yx !! j = d !! j.
Hypothesis step_local : ∀ d d' yx j,
  (∀ j', (j' / 4)%nat = (yx.1 * w + yx.2)%nat → d !! j' = d' !! j') →
  (j / 4)%nat = (yx.1 * w + yx.2)%nat → step d yx !! j = step d' yx !! j.

Lemma grid_loop_lookup ys xs d x y c :
  NoDup ys → NoDup xs → Forall (λ x, x < w)%nat xs → (x < w)%nat → (c < 4)%nat →
  foldl (λ d y, foldl (λ d x, step d (y, x)) d xs) d ys !! (offset w x y + c)%nat
  = if decide (y ∈ ys ∧ x ∈ xs)
    then step d (y, x) !! (offset w x y + c)%nat
    else d !! (offset w x y + c)%nat.
Proof.
  intros Hys Hxs Hw Hx Hc. rewrite foldl_grid.
  pose proof (offset_div w x y c Hc) as Hdiv.
  case_decide as Hin.
  - apply (foldl_pixel_hit (λ yx, yx.1 * w + yx.2)%nat step step_frame step_local).
    + by apply NoDup_grid_pixels.
    + by apply elem_of_grid.
    + done.
  - apply (foldl_pixel_other (λ yx, yx.1 * w + yx.2)%nat step step_frame).
    intros [y' x'] Hin' E. cbn in E. rewrite Hdiv in E.
    apply elem_of_grid in Hin' as [Hy' Hx'].
    rewrite Forall_forall in Hw.
    apply pixel_number_inj in E as [-> ->]; [|by apply Hw|done].
    by apply Hin.
Qed.

End grid_loop.

Lemma Forall_seq_lt w j n : (j + n ≤ w)%nat → Forall (λ x, x < w)%nat (seq j n).
Proof. intros H. apply Forall_forall. intros x Hx%elem_of_seq. lia. Qed.

(** ** Edge enhancer *)

Lemma edgeEnhance_lookup img strength x y c :
  (x < width img)%nat → (y < height img)%nat → (c < 4)%nat →
  length (data img) = (4 * (width img * height img))%nat →
  data (edgeEnhance img strength) !! (offset (width img) x y + c)%nat
  = if decide (1 ≤ x ∧ x + 1 < width img ∧ 1 ≤ y ∧ y + 1 < height img ∧ c < 3)%nat
    then Some (Js.ToUint8Clamp
                 (edgeEnhance_value (data img) strength (width img) x y))
    else data img !! (offset (width img) x y + c)%nat.
Proof.
  destruct img as [w h d]. cbn [width height data]. intros Hx Hy Hc Hlen.
  unfold edgeEnhance. cbn [width height data].
  rewrite grid_loop_lookup; [| | |apply NoDup_seq..|by apply Forall_seq_lt; lia|done|done].
  - assert (offset w x y + c < length d)%nat by (unfold offset; nia).
    unfold edgeEnhance_step. rewrite lookup_put3.
    repeat case_decide; try done; rewrite !elem_of_seq in *; lia.
  - intros d0 [y0 x0] j Hne. cbn in Hne. unfold edgeEnhance_step.
    rewrite lookup_put3. unfold offset. case_decide; [dlia|done].
  - intros d0 d1 [y0 x0] j Hagree Hj. cbn in Hj. unfold edgeEnhance_step.
    rewrite !lookup_put3. specialize (Hagree j Hj).
    assert (j < length d0 ↔ j < length d1)%nat
      by (rewrite <- !lookup_lt_is_Some, Hagree; done).
    repeat case_decide; try done; tauto.
Qed.

(** ** Pixels and cells *)

Definition channel (c : nat) (px : Z * Z * Z * Z) : Z :=
  let '(r, g, b, a) := px in
  match c with
  | 0%nat => r
  | 1%nat => g
  | 2%nat => b
  | _ => a
  end.

Lemma pixel_cells img x y px :
  pixel img x y = Some px ↔
  ∀ c, (c < 4)%nat → data img !! (offset (width img) x y + c)%nat = Some (channel c px).
Proof.
  destruct px as [[[r g] b] a]. unfold pixel. split.
  - intros H c Hc.
    destruct (data img !! offset (width img) x y) as [r'|] eqn:Hr; [|done].
    destruct (data img !! (offset (width img) x y + 1)%nat) as [g'|] eqn:Hg; [|done].
    destruct (data img !! (offset (width img) x y + 2)%nat) as [b'|] eqn:Hb; [|done].
    destruct (data img !! (offset (width img) x y + 3)%nat) as [a'|] eqn:Ha; [|done].
    cbn in H. simplify_eq.
    destruct c as [|[|[|[|c]]]]; cbn; rewrite ?Nat.add_0_r; try done; lia.
  - intros H.
    pose proof (H 0%nat ltac:(lia)) as H0. rewrite Nat.add_0_r in H0.
    rewrite H0, (H 1%nat), (H 2%nat), (H 3%nat) by lia. done.
Qed.

Lemma pixel_ext img img' x y :
  width img = width img' →
  (∀ c, (c < 4)%nat →
     data img !! (offset (width img) x y + c)%nat
     = data img' !! (offset (width img) x y + c)%nat) →
  pixel img x y = pixel img' x y.
Proof.
  intros Hw H. unfold pixel. rewrite <- Hw.
  pose proof (H 0%nat ltac:(lia)) as H0. rewrite Nat.add_0_r in H0.
  rewrite H0, (H 1%nat), (H 2%nat), (H 3%nat) by lia. done.
Qed.

Lemma pixel_wf img x y :
  wf_image img = true → (x < width img)%nat → (y < height img)%nat →
  ∃ r g b a, pixel img x y = Some (r, g, b, a)
    ∧ is_byte r = true ∧ is_byte g = true ∧ is_byte b = true ∧ is_byte a = true.
Proof.
  intros Hwf Hx Hy. pose proof (wf_image_length _ Hwf) as Hlen.
  assert (offset (width img) x y + 3 < length (data img))%nat
    by (unfold offset; nia).
  unfold pixel.
  destruct (lookup_lt_is_Some_2 (data img) (offset (width img) x y)) as [r Hr]; [lia|].
  destruct (lookup_lt_is_Some_2 (data img) (offset (width img) x y + 1)) as [g Hg]; [lia|].
  destruct (lookup_lt_is_Some_2 (data img) (offset (width img) x y + 2)) as [b Hb]; [lia|].
  destruct (lookup_lt_is_Some_2 (data img) (offset (width img) x y + 3)) as [a Ha]; [lia|].
  exists r, g, b, a. rewrite Hr, Hg, Hb, Ha.
  split; [done|]. split_and!; by eapply wf_image_byte.
Qed.

Lemma get_red img x y r g b a :
  pixel img x y = Some (r, g, b, a) →
  get (data img) (offset (width img) x y) = Js.of_Z r.
Proof.
  intros H. apply pixel_cells with (c := 0%nat) in H; [|lia].
  rewrite Nat.add_0_r in H. unfold get. by rewrite H.
Qed.

(** ** The edge kernel, as the specification words it *)

(** The luminance (red channel) of pixel [(x, y)] as a number. *)
Definition lum_at (img : ImageData) (x y : nat) : float :=
  get (data img) (offset (width img) x y).

(** The 3 by 3 neighbourhood of [(x, y)] weighted by the kernel: centre 5,
    the four orthogonal neighbours -1, the corners 0. *)
Definition neighbourhood_sum (img : ImageData) (x y : nat) : float :=
  0 + lum_at img (x - 1) (y - 1) * 0 + lum_at img x (y - 1) * (-1)
    + lum_at img (x + 1) (y - 1) * 0
    + lum_at img (x - 1) y * (-1) + lum_at img x y * 5 + lum_at img (x + 1) y * (-1)
    + lum_at img (x - 1) (y + 1) * 0 + lum_at img x (y + 1) * (-1)
    + lum_at img (x + 1) (y + 1) * 0.

Definition interior (w h x y : nat) : bool :=
  (1 <=? x)%nat && (x + 1 <? w)%nat && (1 <=? y)%nat && (y + 1 <? h)%nat.

Lemma kernel_sum_neighbourhood img x y :
  kernel_sum (data img) (width img) x y = neighbourhood_sum img x y.
Proof.
  unfold kernel_sum, neighbourhood_sum, lum_at, offset. cbn [foldl].
  replace (x + 0 - 1)%nat with (x - 1)%nat by lia.
  replace (x + 1 - 1)%nat with x by lia.
  replace (x + 2 - 1)%nat with (x + 1)%nat by lia.
  replace (y + 0 - 1)%nat with (y - 1)%nat by lia.
  replace (y + 1 - 1)%nat with y by lia.
  replace (y + 2 - 1)%nat with (y + 1)%nat by lia.
  reflexivity.
Qed.

(** C6: [edgeEnhance] keeps the size of the image and leaves every border
    pixel as it was; an interior pixel gets, in its three colour channels,
    the blend [original * (1 - strength) + S * strength] clamped to
    [0, 255] and stored as a byte, where [S] is the kernel-weighted sum of
    the 3 by 3 neighbourhood, every term of which is read from the image as
    it was before the stage ([img], not the partly updated buffer).  Alpha
    is kept.  This holds for every strength, positive or not. *)
Theorem edgeEnhance_border_and_interior img strength x y :
  wf_image img = true → (x < width img)%nat → (y < height img)%nat →
  width (edgeEnhance img strength) = width img ∧
  height (edgeEnhance img strength) = height img ∧
  if interior (width img) (height img) x y
  then ∃ r g b a,
    pixel img x y = Some (r, g, b, a) ∧
    let enhanced := Js.of_Z r * (1 - strength) + neighbourhood_sum img x y * strength in
    let v := Js.ToUint8Clamp (Js.Math_max 0 (Js.Math_min 255 enhanced)) in
    pixel (edgeEnhance img strength) x y = Some (v, v, v, a)
  else pixel (edgeEnhance img strength) x y = pixel img x y.
Proof.
  intros Hwf Hx Hy. split; [done|]. split; [done|].
  pose proof (wf_image_length _ Hwf) as Hlen.
  pose proof (λ c Hc, edgeEnhance_lookup img strength x y c Hx Hy Hc Hlen) as Hcell.
  change (width img) with (width (edgeEnhance img strength)) in Hcell at 1.
  unfold interior. destruct (_ && _) eqn:Hint.
  - destruct (pixel_wf img x y) as (r & g & b & a & Hpx & _); [done..|].
    exists r, g, b, a. split; [done|]. cbn zeta.
    apply pixel_cells. intros c Hc. rewrite Hcell by done.
    rewrite <- (get_red img x y r g b a Hpx).
    rewrite <- kernel_sum_neighbourhood.
    repeat rewrite andb_true_iff in Hint.
    rewrite !Nat.leb_le, !Nat.ltb_lt in Hint.
    destruct (decide (c < 3)%nat) as [Hc3|Hc3].
    + rewrite decide_True by lia.
      unfold edgeEnhance_value. by destruct c as [|[|[|c]]]; [..|lia].
    + rewrite decide_False by lia. assert (c = 3)%nat as -> by lia.
      by apply (proj1 (pixel_cells img x y _) Hpx).
  - apply pixel_ext; [done|]. intros c Hc. rewrite Hcell by done.
    apply decide_False. intros Hd.
    apply not_true_iff_false in Hint. apply Hint.
    repeat rewrite andb_true_iff. rewrite !Nat.leb_le, !Nat.ltb_lt. lia.
Qed.

Lemma edgeEnhance_border_and_interior_witness :
  let img :=
    mkImageData 3 3
      [10; 10; 10; 255;  20; 20; 20; 255;  30; 30; 30; 255;
       40; 40; 40; 255; 100; 100; 100; 9;  60; 60; 60; 255;
       70; 70; 70; 255;  80; 80; 80; 255;  90; 90; 90; 255]%Z in
  pixel (edgeEnhance img 0.5) 1 1 = Some (200, 200, 200, 9)%Z ∧
  pixel (edgeEnhance img 0.5) 2 1 = Some (60, 60, 60, 255)%Z.
Proof.
  intros img. split.
  - destruct (edgeEnhance_border_and_interior img 0.5 1 1) as (_ & _ & H);
      [reflexivity|cbn; lia|cbn; lia|].
    cbn in H. destruct H as (r & g & b & a & Hpx & H).
    injection Hpx as <- <- <- <-. exact H.
  - destruct (edgeEnhance_border_and_interior img 0.5 2 1) as (_ & _ & H);
      [reflexivity|cbn; lia|cbn; lia|].
    exact H.
Defined.

(** ** Ditherer: the loops never throw on a four-colour palette *)

Lemma for_each_inr {A K} (body : A → K → result A) (f : A → K → A) a ks :
  (∀ a k, body a k = inr (f a k)) → for_each body a ks = inr (foldl f a ks).
Proof.
  intros H. revert a. induction ks as [|k ks IH]; intros a; [done|].
  cbn. rewrite H. cbn. apply IH.
Qed.

Lemma quantize_lt d : (quantize d < 4)%nat.
Proof. unfold quantize. repeat case_match; lia. Qed.

(** The quantization level of pixel [(x, y)] of the buffer [d]. *)
Definition shade_at (d : list Z) (w x y : nat) : nat :=
  quantize (dither (get d (offset w x y)) x y).

(** The four stores that end an iteration of [ditherAndColorize]. *)
Definition paint (idx : nat) (c : rgb) (d : list Z) : list Z :=
  let '(r, g, b) := c in
  <[(idx + 3)%nat := 255%Z]>
    (<[(idx + 2)%nat := Js.clamp_byte b]>
      (<[(idx + 1)%nat := Js.clamp_byte g]>
        (<[idx := Js.clamp_byte r]> d))).

Definition painted (c : rgb) : Z * Z * Z * Z :=
  let '(r, g, b) := c in (Js.clamp_byte r, Js.clamp_byte g, Js.clamp_byte b, 255%Z).

Definition dither_step (paletteRgb : list rgb) (w : nat) (d : list Z)
    (yx : nat * nat) : list Z :=
  paint (offset w yx.2 yx.1) (paletteRgb !!! shade_at d w yx.2 yx.1) d.

Lemma ditherAndColorize_step_inr paletteRgb w d yx :
  length paletteRgb = 4%nat →
  ditherAndColorize_step paletteRgb w d yx = inr (dither_step paletteRgb w d yx).
Proof.
  intros Hpal. destruct yx as [y x].
  unfold ditherAndColorize_step, dither_step, shade_at. cbn [fst snd]. lazy zeta.
  pose proof (quantize_lt (dither (get d (offset w x y)) x y)) as Hlt.
  rewrite (list_lookup_lookup_total_lt paletteRgb) by lia.
  by destruct (paletteRgb !!! _) as [[r g] b].
Qed.

(** The image [ditherAndColorize] leaves behind. *)
Definition dithered_image (img : ImageData) (paletteRgb : list rgb) : ImageData :=
  mkImageData (width img) (height img)
    (foldl (λ d y,
       foldl (λ d x, dither_step paletteRgb (width img) d (y, x)) d
         (seq 0 (width img)))
     (data img) (seq 0 (height img))).

Lemma ditherAndColorize_inr img paletteRgb :
  length paletteRgb = 4%nat →
  ditherAndColorize img paletteRgb = inr (dithered_image img paletteRgb).
Proof.
  intros Hpal. unfold ditherAndColorize, dithered_image.
  erewrite for_each_inr; [done|]. intros d y. cbn beta.
  apply for_each_inr. intros d' x. by apply ditherAndColorize_step_inr.
Qed.

Lemma lookup_paint idx c (d : list Z) j :
  paint idx c d !! j
  = if decide (idx ≤ j < idx + 4 ∧ j < length d)%nat
    then Some (channel (j - idx) (painted c)) else d !! j.
Proof.
  destruct c as [[r g] b]. unfold paint, painted.
  rewrite !list_lookup_insert, !length_insert.
  destruct (decide (idx ≤ j < idx + 4 ∧ j < length d)%nat) as [H|H].
  - assert (j - idx = 0 ∨ j - idx = 1 ∨ j - idx = 2 ∨ j - idx = 3)%nat
      as [E|[E|[E|E]]] by lia; rewrite E; cbn;
      repeat case_decide; try done; lia.
  - repeat case_decide; try done; lia.
Qed.

Lemma dithered_image_lookup img paletteRgb x y c :
  (x < width img)%nat → (y < height img)%nat → (c < 4)%nat →
  length (data img) = (4 * (width img * height img))%nat →
  data (dithered_image img paletteRgb) !! (offset (width img) x y + c)%nat
  = Some (channel c (painted (paletteRgb !!! shade_at (data img) (width img) x y))).
Proof.
  destruct img as [w h d]. cbn [width height data]. intros Hx Hy Hc Hlen.
  unfold dithered_image. cbn [width height data].
  rewrite grid_loop_lookup; [| | |apply NoDup_seq..|by apply Forall_seq_lt; lia|done|done].
  - assert (offset w x y + c < length d)%nat by (unfold offset; nia).
    rewrite decide_True by (rewrite !elem_of_seq; lia).
    unfold dither_step. cbn [fst snd]. rewrite lookup_paint.
    rewrite decide_True by lia. do 3 f_equal. lia.
  - intros d0 [y0 x0] j Hne. cbn in Hne. unfold dither_step. cbn [fst snd].
    rewrite lookup_paint. unfold offset.
    destruct (decide _) as [Hd|Hd]; [exfalso; clear -Hne Hd; dlia|done].
  - intros d0 d1 [y0 x0] j Hagree Hj. cbn in Hj. unfold dither_step. cbn [fst snd].
    rewrite !lookup_paint.
    assert (shade_at d0 w x0 y0 = shade_at d1 w x0 y0) as ->.
    { unfold shade_at. rewrite (get_agree d0 d1); [done|].
      apply Hagree. cbn [fst snd]. unfold offset. dlia. }
    specialize (Hagree j Hj).
    assert (j < length d0 ↔ j < length d1)%nat
      by (rewrite <- !lookup_lt_is_Some, Hagree; done).
    repeat case_decide; try done; tauto.
Qed.

Lemma dithered_image_length img paletteRgb :
  length (data (dithered_image img paletteRgb)) = length (data img).
Proof.
  unfold dithered_image. cbn [data]. generalize (data img) as d.
  induction (seq 0 (height img)) as [|y ys IH]; intros d; [done|].
  cbn [foldl]. rewrite IH. clear IH. revert d.
  induction (seq 0 (width img)) as [|x xs IH]; intros d; [done|].
  cbn [foldl]. rewrite IH. unfold dither_step, paint.
  destruct (_ !!! _) as [[r g] b]. by rewrite !length_insert.
Qed.

(** ** Quantization of values outside [0, 1] *)

Lemma quantize_negative d : (d <? 0) = true → quantize d = 0%nat.
Proof.
  unfold quantize. rewrite !FloatAxioms.ltb_spec.
  change (Prim2SF 0) with (S754_zero false).
  change (Prim2SF 0.25) with (S754_finite false 4503599627370496 (-54)).
  destruct (Prim2SF d) as [[]|[]| |[] m e]; cbv [SFltb SFcompare]; congruence.
Qed.

Lemma quantize_one_or_more d : (1 <=? d) = true → quantize d = 3%nat.
Proof.
  unfold quantize. rewrite FloatAxioms.leb_spec, !FloatAxioms.ltb_spec.
  change (Prim2SF 1) with (S754_finite false 4503599627370496 (-52)).
  change (Prim2SF 0.25) with (S754_finite false 4503599627370496 (-54)).
  change (Prim2SF 0.5) with (S754_finite false 4503599627370496 (-53)).
  change (Prim2SF 0.75) with (S754_finite false 6755399441055744 (-53)).
  destruct (Prim2SF d) as [[]|[]| |[] m e]; cbv [SFleb SFltb SFcompare];
    try congruence.
  intros H.
  assert (-52 ≤ e)%Z as He.
  { destruct (Z.compare_spec (-52) e); [lia|lia|done]. }
  assert ((e ?= -54)%Z = Gt) as -> by (apply Z.compare_gt_iff; lia).
  assert ((e ?= -53)%Z = Gt) as -> by (apply Z.compare_gt_iff; lia).
  done.
Qed.

(** ** The threshold matrix and exact arithmetic *)

(** The classic Bayer index matrix of side [2 ^ n]: from the matrix [m] of
    side [2 ^ (n - 1)], the four blocks [4m], [4m + 2], [4m + 3], [4m + 1]. *)
Fixpoint bayer_matrix (n : nat) : list (list Z) :=
  match n with
  | O => [[0%Z]]
  | S n =>
      let m := bayer_matrix n in
      let block (c : Z) : list (list Z) := map (map (λ v, 4 * v + c)%Z) m in
      zip_with app (block 0%Z) (block 2%Z) ++ zip_with app (block 3%Z) (block 1%Z)
  end.

(** [v / 255 + (k / 16 - 1/2) * 33/100] as a rational number. *)
Definition exact_dithered (v k : Z) : Q :=
  (v # 255) + ((k # 16) - (1 # 2)) * (33 # 100).

Definition Qlt_bool (p q : Q) : bool :=
  match (p ?= q)%Q with Lt => true | _ => false end.

Definition exact_level (v k : Z) : nat :=
  let q := exact_dithered v k in
  if Qlt_bool q (1 # 4) then 0%nat
  else if Qlt_bool q (1 # 2) then 1%nat
  else if Qlt_bool q (3 # 4) then 2%nat
  else 3%nat.

(** The level computed in binary64 is the level of the exact value: no
    byte and no threshold come close enough to a breakpoint for rounding to
    matter. *)
Lemma quantize_exact v k :
  is_byte v = true → (0 ≤ k < 16)%Z →
  quantize (Js.of_Z v / 255 + (Js.of_Z k / 16 - 0.5) * 0.33) = exact_level v k.
Proof.
  intros Hv Hk.
  set (P := λ v, forallb (λ k,
    Nat.eqb (quantize (Js.of_Z v / 255 + (Js.of_Z k / 16 - 0.5) * 0.33))
            (exact_level v k)) (seqZ 0 16)).
  assert (P v = true) as HP by (apply all_bytes; [by vm_compute|done]).
  unfold P in HP. rewrite forallb_forall in HP.
  apply Nat.eqb_eq, HP, list_elem_of_In, elem_of_seqZ. lia.
Qed.

Lemma bayer_at_matrix y x :
  ∃ k, (0 ≤ k < 16)%Z
    ∧ bayer_matrix 2 !! (y mod 4)%nat ≫= (.!! (x mod 4)%nat) = Some k
    ∧ bayer_at y x = Js.of_Z k / 16.
Proof.
  unfold bayer_at.
  assert (y mod 4 < 4)%nat as Hy by dlia. assert (x mod 4 < 4)%nat as Hx by dlia.
  destruct (y mod 4)%nat as [|[|[|[|?]]]]; [| | | |lia];
    (destruct (x mod 4)%nat as [|[|[|[|?]]]]; [| | | |lia]);
    eexists; (split; [|split; [reflexivity|reflexivity]]); lia.
Qed.

Lemma shade_at_red img x y r g b a :
  pixel img x y = Some (r, g, b, a) →
  shade_at (data img) (width img) x y
  = quantize (Js.of_Z r / 255 + (bayer_at y x - 0.5) * 0.33).
Proof. intros H. unfold shade_at. by rewrite (get_red img x y r g b a H). Qed.

(** C1: the threshold matrix is the classic 4 by 4 Bayer matrix over 16
    (rows 0 8 2 10, 12 4 14 6, 3 11 1 9 and 15 7 13 5, the recursive Bayer
    construction), its entries being the sixteen values 0/16 .. 15/16; for
    a pixel (x, y) whose channel holds [r], [ditherAndColorize] takes the
    entry [k] of row [y mod 4] and column [x mod 4] of that matrix,
    compares [r / 255 + (k / 16 - 0.5) * 0.33] with 0.25, 0.5 and 0.75 and
    stores the palette entry of that level; nothing is clamped, so a value
    below 0 has level 0 and a value of 1 or more has level 3; and the
    levels are those of the exact rational value. *)
Theorem ditherAndColorize_levels :
  bayer_matrix 2
  = [[0; 8; 2; 10]; [12; 4; 14; 6]; [3; 11; 1; 9]; [15; 7; 13; 5]]%Z ∧
  BAYER_4x4 = map (map (λ k, Js.of_Z k / 16)) (bayer_matrix 2) ∧
  concat (bayer_matrix 2) ≡ₚ seqZ 0 16 ∧
  (∀ img paletteRgb x y r g b a,
     wf_image img = true → length paletteRgb = 4%nat →
     (x < width img)%nat → (y < height img)%nat →
     pixel img x y = Some (r, g, b, a) →
     ∃ k,
       bayer_matrix 2 !! (y mod 4)%nat ≫= (.!! (x mod 4)%nat) = Some k ∧
       let dithered := Js.of_Z r / 255 + (Js.of_Z k / 16 - 0.5) * 0.33 in
       let level :=
         if dithered <? 0.25 then 0%nat
         else if dithered <? 0.5 then 1%nat
         else if dithered <? 0.75 then 2%nat
         else 3%nat in
       ∃ out c,
         ditherAndColorize img paletteRgb = inr out ∧
         paletteRgb !! level = Some c ∧
         pixel out x y = Some (painted c)) ∧
  (∀ d, (d <? 0) = true → quantize d = 0%nat) ∧
  (∀ d, (1 <=? d) = true → quantize d = 3%nat) ∧
  (∀ v k, is_byte v = true → (0 ≤ k < 16)%Z →
     quantize (Js.of_Z v / 255 + (Js.of_Z k / 16 - 0.5) * 0.33) = exact_level v k).
Proof.
  split; [reflexivity|]. split; [reflexivity|].
  split; [apply (bool_decide_unpack _); by vm_compute|].
  split; [|split; [exact quantize_negative|split;
    [exact quantize_one_or_more|exact quantize_exact]]].
  intros img pal x y r g b a Hwf Hpal Hx Hy Hpx.
  destruct (bayer_at_matrix y x) as (k & _ & Hk & Hbayer).
  exists k. split; [exact Hk|]. intros dithered level.
  exists (dithered_image img pal), (pal !!! level).
  split; [by apply ditherAndColorize_inr|].
  split.
  - apply list_lookup_lookup_total_lt. rewrite Hpal. apply (quantize_lt dithered).
  - apply pixel_cells. intros c Hc. cbn [dithered_image width].
    rewrite dithered_image_lookup by (done || by apply wf_image_length).
    by rewrite (shade_at_red img x y r g b a Hpx), Hbayer.
Qed.

Lemma ditherAndColorize_levels_witness :
  ∃ out,
    ditherAndColorize (mkImageData 2 2 [10; 0; 0; 0; 120; 7; 7; 7;
                                        120; 9; 9; 9; 250; 1; 1; 1]%Z)
      [(1, 2, 3); (4, 5, 6); (7, 8, 9); (10, 11, 12)]%Z = inr out ∧
    pixel out 1 0 = Some (4, 5, 6, 255)%Z ∧
    pixel out 0 1 = Some (7, 8, 9, 255)%Z.
Proof.
  pose (img := mkImageData 2 2 [10; 0; 0; 0; 120; 7; 7; 7;
                                120; 9; 9; 9; 250; 1; 1; 1]%Z).
  pose (pal := [(1, 2, 3); (4, 5, 6); (7, 8, 9); (10, 11, 12)]%Z).
  destruct (proj1 (proj2 (proj2 (proj2 ditherAndColorize_levels)))
              img pal 1%nat 0%nat 120%Z 7%Z 7%Z 7%Z)
    as (k & Hk & out & c & Hrun & Hc & Hpx);
    [reflexivity|reflexivity|cbn; lia|cbn; lia|reflexivity|].
  destruct (proj1 (proj2 (proj2 (proj2 ditherAndColorize_levels)))
              img pal 0%nat 1%nat 120%Z 9%Z 9%Z 9%Z)
    as (k' & Hk' & out' & c' & Hrun' & Hc' & Hpx');
    [reflexivity|reflexivity|cbn; lia|cbn; lia|reflexivity|].
  vm_compute in Hk. injection Hk as <-.
  vm_compute in Hk'. injection Hk' as <-.
  vm_compute in Hc. injection Hc as <-.
  vm_compute in Hc'. injection Hc' as <-.
  rewrite Hrun in Hrun'. injection Hrun' as <-.
  exists out. exact (conj Hrun (conj Hpx Hpx')).
Defined.

(** ** What the ditherer reads *)

(** The red channel of the pixels of a buffer, in order. *)
Fixpoint red_channel (d : list Z) : list Z :=
  match d with
  | r :: _ :: _ :: _ :: d' => r :: red_channel d'
  | _ => []
  end.

Lemma red_channel_lookup d p :
  (4 * p + 3 < length d)%nat → red_channel d !! p = d !! (4 * p)%nat.
Proof.
  revert d. induction p as [|p IH]; intros d Hlen;
    destruct d as [|r0 [|g0 [|b0 [|a0 d']]]]; cbn in Hlen; try lia; [done|].
  replace (4 * S p)%nat with (S (S (S (S (4 * p))))) by lia.
  cbn. apply IH. lia.
Qed.

(** Every cell of a non-empty image is a channel of a pixel of the grid. *)
Lemma cell_coordinates w h j :
  (j < 4 * (w * h))%nat →
  ∃ x y c, (x < w ∧ y < h ∧ c < 4)%nat ∧ j = (offset w x y + c)%nat.
Proof.
  intros Hj. assert (0 < w)%nat by nia.
  exists ((j / 4) mod w)%nat, ((j / 4) / w)%nat, (j mod 4)%nat.
  pose proof (Nat.div_mod (j / 4) w ltac:(lia)) as Hdm.
  pose proof (Nat.mod_upper_bound (j / 4) w ltac:(lia)).
  pose proof (Nat.div_mod j 4 ltac:(lia)).
  pose proof (Nat.mod_upper_bound j 4 ltac:(lia)).
  assert ((j / 4) / w < h)%nat.
  { apply Nat.Div0.div_lt_upper_bound. apply Nat.Div0.div_lt_upper_bound. lia. }
  unfold offset. split; [lia|]. nia.
Qed.

(** C10: the output of [ditherAndColorize] depends on the red channel
    only: two images of the same size whose pixels have the same red values
    give the same output, whatever their green, blue and alpha channels. *)
Theorem ditherAndColorize_reads_red_only img1 img2 paletteRgb :
  wf_image img1 = true → wf_image img2 = true →
  width img1 = width img2 → height img1 = height img2 →
  length paletteRgb = 4%nat →
  red_channel (data img1) = red_channel (data img2) →
  ditherAndColorize img1 paletteRgb = ditherAndColorize img2 paletteRgb.
Proof.
  intros Hwf1 Hwf2 Hw Hh Hpal Hred.
  pose proof (wf_image_length _ Hwf1) as Hlen1.
  pose proof (wf_image_length _ Hwf2) as Hlen2.
  rewrite !ditherAndColorize_inr by done. f_equal.
  assert (data (dithered_image img1 paletteRgb) = data (dithered_image img2 paletteRgb))
    as Hdata; [|unfold dithered_image in *; cbn [data] in Hdata; by rewrite Hdata, Hw, Hh].
  apply list_eq. intros j.
  destruct (decide (j < 4 * (width img1 * height img1))%nat) as [Hj|Hj].
  - destruct (cell_coordinates _ _ _ Hj) as (x & y & c & (Hx & Hy & Hc) & ->).
    rewrite dithered_image_lookup by done.
    rewrite Hw. rewrite dithered_image_lookup by (first [exact Hlen2|lia]).
    do 4 f_equal. unfold shade_at, get. do 2 f_equal. rewrite <- Hw.
    unfold offset.
    replace ((y * width img1 + x) * 4)%nat with (4 * (y * width img1 + x))%nat by lia.
    rewrite <- !red_channel_lookup by (rewrite ?Hlen1, ?Hlen2, <- ?Hw, <- ?Hh; nia).
    by rewrite Hred.
  - rewrite !lookup_ge_None_2; [done|..];
      rewrite dithered_image_length, ?Hlen1, ?Hlen2, <- ?Hw, <- ?Hh; lia.
Qed.

Lemma ditherAndColorize_reads_red_only_witness :
  ditherAndColorize (mkImageData 2 1 [10; 0; 0; 0; 250; 7; 7; 7]%Z)
    [(1, 2, 3); (4, 5, 6); (7, 8, 9); (10, 11, 12)]%Z
  = ditherAndColorize (mkImageData 2 1 [10; 99; 98; 97; 250; 1; 2; 3]%Z)
      [(1, 2, 3); (4, 5, 6); (7, 8, 9); (10, 11, 12)]%Z.
Proof. apply ditherAndColorize_reads_red_only; reflexivity. Defined.

(** ** The palette registry *)

Definition registered_keys : list string :=
  ["classic"; "sunset"; "amber"; "teal"; "noir"; "vaporwave"].

Definition rgb_is_byte (c : rgb) : bool :=
  is_byte c.1.1 && is_byte c.1.2 && is_byte c.2.

Lemma land_255_byte z : is_byte (Z.land z 255) = true.
Proof.
  unfold is_byte. change 255%Z with (Z.ones 8). rewrite Z.land_ones by lia.
  pose proof (Z.mod_pos_bound z (2 ^ 8) ltac:(lia)).
  apply andb_true_intro. split; [apply Z.leb_le|apply Z.ltb_lt]; lia.
Qed.

Lemma hexToRgb_byte hex : rgb_is_byte (hexToRgb hex) = true.
Proof. unfold rgb_is_byte, hexToRgb. cbn [fst snd]. by rewrite !land_255_byte. Qed.

Lemma PALETTES_unregistered key : key ∉ registered_keys → PALETTES !! key = None.
Proof. intros H. by apply not_elem_of_list_to_map_1. Qed.

Lemma PALETTES_registered key :
  key ∈ registered_keys → ∃ p, PALETTES !! key = Some p ∧ length (colors p) = 4%nat.
Proof.
  unfold registered_keys. rewrite !elem_of_cons, elem_of_nil.
  intros [->|[->|[->|[->|[->|[->|[]]]]]]]; eexists; split;
    try (vm_compute; reflexivity).
Qed.

Lemma getPaletteRgb_inr paletteKey paletteRgb :
  getPaletteRgb paletteKey = inr paletteRgb →
  paletteKey ∈ registered_keys
  ∧ length paletteRgb = 4%nat
  ∧ Forall (λ c, rgb_is_byte c = true) paletteRgb.
Proof.
  intros H. unfold getPaletteRgb, PALETTES_get in H.
  destruct (decide (paletteKey ∈ registered_keys)) as [Hin|Hin].
  - split; [done|]. destruct (PALETTES_registered _ Hin) as (p & Hp & Hlen).
    rewrite Hp in H. injection H as <-. rewrite length_fmap. split; [done|].
    apply Forall_fmap, Forall_forall. intros hex _. apply hexToRgb_byte.
  - rewrite (PALETTES_unregistered _ Hin) in H. by case_bool_decide.
Qed.

Lemma clamp_byte_byte v : is_byte v = true → Js.clamp_byte v = v.
Proof.
  unfold is_byte, Js.clamp_byte. intros [?%Z.leb_le ?%Z.ltb_lt]%andb_prop. lia.
Qed.

Lemma painted_byte c :
  rgb_is_byte c = true → painted c = (c.1.1, c.1.2, c.2, 255%Z).
Proof.
  destruct c as [[r g] b]. unfold rgb_is_byte, painted. cbn [fst snd].
  intros [[? ?]%andb_prop ?]%andb_prop. by rewrite !clamp_byte_byte.
Qed.

(** Every pixel of a dithered image carries a colour of the palette. *)
Lemma dithered_image_pixel img paletteRgb x y :
  length paletteRgb = 4%nat → Forall (λ c, rgb_is_byte c = true) paletteRgb →
  length (data img) = (4 * (width img * height img))%nat →
  (x < width img)%nat → (y < height img)%nat →
  ∃ r g b, pixel (dithered_image img paletteRgb) x y = Some (r, g, b, 255%Z)
    ∧ (r, g, b) ∈ paletteRgb.
Proof.
  intros Hpal Hbytes Hlen Hx Hy.
  set (s := shade_at (data img) (width img) x y).
  assert (paletteRgb !! s = Some (paletteRgb !!! s)) as Hs.
  { apply list_lookup_lookup_total_lt. rewrite Hpal. apply quantize_lt. }
  destruct (paletteRgb !!! s) as [[r g] b] eqn:Hc.
  exists r, g, b. split; [|by eapply list_elem_of_lookup_2].
  apply pixel_cells. intros c Hc4. cbn [dithered_image width].
  rewrite dithered_image_lookup by done. fold s. rewrite Hc.
  rewrite painted_byte; [done|].
  rewrite Forall_forall in Hbytes. apply Hbytes. by eapply list_elem_of_lookup_2.
Qed.

Lemma edgeEnhance_length img strength :
  length (data (edgeEnhance img strength)) = length (data img).
Proof.
  unfold edgeEnhance. cbn [data]. generalize (data img) at 2 3 as d.
  induction (seq 1 (height img - 2)) as [|y ys IH]; intros d; [done|].
  cbn [foldl]. rewrite IH. clear IH. revert d.
  induction (seq 1 (width img - 2)) as [|x xs IH]; intros d; [done|].
  cbn [foldl]. rewrite IH. unfold edgeEnhance_step. by rewrite !length_put.
Qed.

(** What the browser guarantees of the image [getImageData(0, 0, dw, dh)]
    returns: its size and the [ImageData] invariant. *)
Definition canvas_image (out : ImageData) (dw dh : nat) : bool :=
  (width out =? dw)%nat && (height out =? dh)%nat && wf_image out.

Lemma canvas_image_spec out dw dh :
  canvas_image out dw dh = true →
  width out = dw ∧ height out = dh ∧ wf_image out = true.
Proof.
  unfold canvas_image. intros [[?%Nat.eqb_eq ?%Nat.eqb_eq]%andb_prop ?]%andb_prop.
  done.
Qed.

(** The image handed to [ditherAndColorize] by [processFrame]. *)
Lemma luminance_stages_shape img contrast edgeStrength :
  let gray := applyContrast (toGrayscale img) contrast in
  let gray := if 0 <? edgeStrength then edgeEnhance gray edgeStrength else gray in
  width gray = width img ∧ height gray = height img
  ∧ length (data gray) = length (data img).
Proof.
  cbn zeta. destruct (0 <? edgeStrength); (split; [done|split; [done|]]);
    by rewrite ?edgeEnhance_length, applyContrast_length, toGrayscale_length.
Qed.

(** C3: [ditherAndColorize] with a resolved palette, and so [processFrame],
    leaves in every pixel one of the four colours of the palette, with
    alpha 255. *)
Theorem output_colours_are_palette_colours :
  (∀ paletteKey paletteRgb img,
     getPaletteRgb paletteKey = inr paletteRgb → wf_image img = true →
     ∃ out, ditherAndColorize img paletteRgb = inr out ∧
       ∀ x y, (x < width img)%nat → (y < height img)%nat →
         ∃ r g b, pixel out x y = Some (r, g, b, 255%Z) ∧ (r, g, b) ∈ paletteRgb) ∧
  (∀ canvas src paletteKey options out,
     canvas_image (canvas true src GBC_WIDTH GBC_HEIGHT) GBC_WIDTH GBC_HEIGHT = true →
     processFrame canvas src paletteKey options = inr out →
     ∃ paletteRgb, getPaletteRgb paletteKey = inr paletteRgb ∧
       width out = GBC_WIDTH ∧ height out = GBC_HEIGHT ∧
       ∀ x y, (x < GBC_WIDTH)%nat → (y < GBC_HEIGHT)%nat →
         ∃ r g b, pixel out x y = Some (r, g, b, 255%Z) ∧ (r, g, b) ∈ paletteRgb).
Proof.
  split.
  - intros key pal img Hpal Hwf.
    apply getPaletteRgb_inr in Hpal as (_ & Hlen & Hbytes).
    exists (dithered_image img pal). split; [by apply ditherAndColorize_inr|].
    intros x y Hx Hy. apply dithered_image_pixel; try done. by apply wf_image_length.
  - intros canvas src key options out Hcanvas Hrun.
    apply canvas_image_spec in Hcanvas as (Hw & Hh & Hwf).
    apply wf_image_length in Hwf. rewrite Hw, Hh in Hwf.
    unfold processFrame, downscale in Hrun.
    destruct (getPaletteRgb key) as [e|pal] eqn:Hpal; [done|]. cbn [bind_result] in Hrun.
    pose proof (getPaletteRgb_inr _ _ Hpal) as (_ & Hlen & Hbytes).
    exists pal. split; [done|].
    destruct (luminance_stages_shape (canvas true src GBC_WIDTH GBC_HEIGHT)
                (default 1.2 (contrast options))
                (default 0.3 (edgeStrength options))) as (Hgw & Hgh & Hgl).
    cbn zeta in Hgw, Hgh, Hgl.
    rewrite ditherAndColorize_inr in Hrun by done. injection Hrun as <-.
    cbn [dithered_image width height]. rewrite Hgw, Hgh, Hw, Hh.
    split; [done|]. split; [done|]. intros x y Hx Hy.
    apply dithered_image_pixel; try done; rewrite ?Hgw, ?Hgh, ?Hgl, ?Hw, ?Hh; done.
Qed.

Lemma output_colours_are_palette_colours_witness :
  ∃ out,
    ditherAndColorize (mkImageData 2 1 [10; 0; 0; 0; 250; 7; 7; 7]%Z)
      [(15, 56, 15); (48, 98, 48); (139, 172, 15); (155, 188, 15)]%Z = inr out ∧
    ∀ x y, (x < 2)%nat → (y < 1)%nat →
      ∃ r g b, pixel out x y = Some (r, g, b, 255%Z)
        ∧ (r, g, b) ∈ [(15, 56, 15); (48, 98, 48); (139, 172, 15); (155, 188, 15)]%Z.
Proof.
  apply (proj1 output_colours_are_palette_colours "classic"
           [(15, 56, 15); (48, 98, 48); (139, 172, 15); (155, 188, 15)]%Z
           (mkImageData 2 1 [10; 0; 0; 0; 250; 7; 7; 7]%Z));
    [vm_compute; reflexivity|reflexivity].
Defined.

(** ** The orchestrator *)

Lemma not_positive (e : float) : (e <=? 0) = true → (0 <? e) = false.
Proof.
  rewrite FloatAxioms.leb_spec, FloatAxioms.ltb_spec.
  change (Prim2SF 0) with (S754_zero false).
  destruct (Prim2SF e) as [[]|[]| |[] m x]; cbv [SFleb SFltb SFcompare]; congruence.
Qed.

(** C7: with [edgeStrength <= 0] (0 in particular) [processFrame] returns
    what the pipeline without the Edge Enhancer stage returns: the stage is
    not run. *)
Theorem processFrame_edge_disabled canvas src paletteKey factor strength :
  (strength <=? 0) = true →
  processFrame canvas src paletteKey (mkOptions factor (Some strength))
  = processFrame_without_edge canvas src paletteKey factor.
Proof.
  intros He. unfold processFrame, processFrame_without_edge.
  change (default 0.3 (edgeStrength (mkOptions factor (Some strength))))
    with strength.
  by rewrite (not_positive strength He).
Qed.

Lemma processFrame_edge_disabled_witness :
  processFrame (λ _ img _ _, img) (mkImageData 1 1 [128; 128; 128; 255]%Z)
    "classic" (mkOptions None (Some 0))
  = processFrame_without_edge (λ _ img _ _, img)
      (mkImageData 1 1 [128; 128; 128; 255]%Z) "classic" None.
Proof. apply processFrame_edge_disabled. reflexivity. Defined.

(** C4, at the key ["toString"]: the key is not registered, and
    [processFrame] raises the engine's [TypeError], not the
    ["Unknown palette: toString"] error: [PALETTES["toString"]] is the
    function inherited from [Object.prototype], which passes the
    [!palette] test and has no [colors]. *)
Theorem processFrame_inherited_key canvas src options :
  ("toString" ∉ registered_keys) ∧
  processFrame canvas src "toString" options = inl TypeError.
Proof.
  split; [|reflexivity].
  unfold registered_keys. rewrite !elem_of_cons, elem_of_nil.
  intros [|[|[|[|[|[|[]]]]]]]; discriminate.
Qed.

(** What does hold of the keys: the six registered ones resolve, a member
    of [Object.prototype] raises [TypeError], and every other key raises
    the [Unknown palette] error that carries it; in the last two cases no
    stage runs and no image is returned. *)
Lemma processFrame_unregistered canvas src paletteKey options :
  paletteKey ∉ registered_keys →
  processFrame canvas src paletteKey options
  = inl (if bool_decide (paletteKey ∈ Object_prototype_keys)
         then TypeError
         else Error ("Unknown palette: " +:+ paletteKey)).
Proof.
  intros H. unfold processFrame, getPaletteRgb, PALETTES_get.
  rewrite (PALETTES_unregistered _ H). by case_bool_decide.
Qed.

(** ** Calls on the heap *)

(** A call on the heap looks up the source object, runs [processFrame] on
    its value and allocates the result. *)
Lemma processFrame_heap_pure canvas (h : heap) source paletteKey options :
  processFrame_heap canvas h source paletteKey options
  = try paletteRgb := getPaletteRgb paletteKey in
    match h !! source with
    | None => inl TypeError
    | Some img =>
        try out := processFrame canvas img paletteKey options in
        inr (fresh (dom h), <[fresh (dom h) := out]> h)
    end.
Proof.
  unfold processFrame_heap, processFrame, alloc.
  destruct (getPaletteRgb paletteKey) as [e|pal]; [done|]. cbn [bind_result].
  destruct (h !! source) as [img|]; [|done].
  rewrite !alter_insert_eq.
  destruct (0 <? default 0.3 (edgeStrength options));
    rewrite ?alter_insert_eq, lookup_insert_eq;
    (destruct (ditherAndColorize _ pal) as [e|out]; [done|]);
    cbn [bind_result]; by rewrite insert_insert_eq.
Qed.

(** ** The mid-gray frame *)

(** Every pixel of the buffer is (128, 128, 128), whatever its alpha. *)
Fixpoint mid_gray_pixels (d : list Z) : bool :=
  match d with
  | r :: g :: b :: _ :: d' =>
      (r =? 128)%Z && (g =? 128)%Z && (b =? 128)%Z && mid_gray_pixels d'
  | _ => true
  end.

Lemma mid_gray_pixels_lookup d p :
  mid_gray_pixels d = true → (4 * p + 3 < length d)%nat →
  d !! (4 * p)%nat = Some 128%Z ∧ d !! (4 * p + 1)%nat = Some 128%Z
  ∧ d !! (4 * p + 2)%nat = Some 128%Z.
Proof.
  revert d. induction p as [|p IH]; intros d Hg Hlen;
    destruct d as [|r0 [|g0 [|b0 [|a0 d']]]]; cbn in Hlen; try lia;
    cbn in Hg; apply andb_prop in Hg as [[[->%Z.eqb_eq ->%Z.eqb_eq]%andb_prop
      ->%Z.eqb_eq]%andb_prop Hg]; [done|].
  replace (4 * S p)%nat with (S (S (S (S (4 * p))))) by lia.
  cbn. apply IH; [done|lia].
Qed.

(** The level of a pixel of value 128: 2 where the entry of the Bayer
    matrix for its position is 8 or more, 1 elsewhere. *)
Lemma mid_gray_level x y :
  ∃ k,
    bayer_matrix 2 !! (y mod 4)%nat ≫= (.!! (x mod 4)%nat) = Some k ∧
    (8 <=? k)%Z = Nat.odd (x + y) ∧
    quantize (dither (Js.of_Z 128) x y) = if (8 <=? k)%Z then 2%nat else 1%nat.
Proof.
  assert (Nat.odd (x + y) = Nat.odd (x mod 4 + y mod 4)) as ->.
  { rewrite (Nat.div_mod_eq x 4) at 1. rewrite (Nat.div_mod_eq y 4) at 1.
    rewrite !Nat.odd_add, !Nat.odd_mul. cbn [Nat.odd andb xorb].
    by destruct (Nat.odd (x mod 4)). }
  unfold dither, bayer_at.
  assert (y mod 4 < 4)%nat as Hy by dlia. assert (x mod 4 < 4)%nat as Hx by dlia.
  destruct (y mod 4)%nat as [|[|[|[|?]]]]; [| | | |lia];
    (destruct (x mod 4)%nat as [|[|[|[|?]]]]; [| | | |lia]);
    (eexists; split; [reflexivity|split; vm_compute; reflexivity]).
Qed.

(** Grayscale and contrast 1.0 leave 128 in the red channel of a mid-gray
    pixel. *)
Lemma mid_gray_luminance src x y :
  wf_image src = true → mid_gray_pixels (data src) = true →
  (x < width src)%nat → (y < height src)%nat →
  get (data (applyContrast (toGrayscale src) 1)) (offset (width src) x y)
  = Js.of_Z 128.
Proof.
  intros Hwf Hgray Hx Hy. pose proof (wf_image_length _ Hwf) as Hlen.
  set (p := (y * width src + x)%nat).
  assert (offset (width src) x y = 4 * p)%nat as -> by (unfold offset, p; lia).
  assert (4 * p + 3 < length (data src))%nat by (unfold p; nia).
  destruct (mid_gray_pixels_lookup _ p Hgray) as (Hr & Hg & Hb); [done|].
  assert (4 * (4 * p / 4) = 4 * p)%nat as Hp by dlia.
  unfold get at 1.
  rewrite (applyContrast_lookup _ _ (width src * height src))
    by (by rewrite toGrayscale_length).
  rewrite toGrayscale_length, decide_True by dlia. rewrite Hp.
  unfold get at 1.
  rewrite (toGrayscale_lookup _ (width src * height src)) by done.
  rewrite decide_True by dlia. rewrite Hp.
  unfold luminance, get. rewrite Hr, Hg, Hb. reflexivity.
Qed.

(** C2: on a 128 by 112 source whose pixels are all (128, 128, 128), with
    contrast 1.0, edge strength 0 and the classic palette, the output pixel
    at (x, y) is #8bac0f (level 2) where the entry of row [y mod 4] and
    column [x mod 4] of the 4 by 4 Bayer matrix is 8 or more (a threshold of
    at least 8/16) and #306230 (level 1) elsewhere; no pixel has the colour
    of level 0 or 3.  The entries of 8 or more are those with [x + y] odd,
    so the frame is a checkerboard of the two colours.  The canvas is assumed to return this source unchanged
    when asked for its own size. *)
Theorem processFrame_mid_gray canvas src :
  width src = GBC_WIDTH → height src = GBC_HEIGHT → wf_image src = true →
  mid_gray_pixels (data src) = true →
  canvas true src GBC_WIDTH GBC_HEIGHT = src →
  bayer_matrix 2
  = [[0; 8; 2; 10]; [12; 4; 14; 6]; [3; 11; 1; 9]; [15; 7; 13; 5]]%Z ∧
  hexToRgb "#306230" = (48, 98, 48)%Z ∧ hexToRgb "#8bac0f" = (139, 172, 15)%Z ∧
  ∃ out,
    processFrame canvas src "classic" (mkOptions (Some 1) (Some 0)) = inr out ∧
    ∀ x y, (x < GBC_WIDTH)%nat → (y < GBC_HEIGHT)%nat →
      ∃ k,
        bayer_matrix 2 !! (y mod 4)%nat ≫= (.!! (x mod 4)%nat) = Some k ∧
        (8 <=? k)%Z = Nat.odd (x + y) ∧
        pixel out x y
        = Some (if (8 <=? k)%Z
                then (139, 172, 15, 255)%Z else (48, 98, 48, 255)%Z).
Proof.
  intros Hw Hh Hwf Hgray Hcanvas.
  split; [reflexivity|]. split; [reflexivity|]. split; [reflexivity|].
  unfold processFrame, downscale.
  change (getPaletteRgb "classic")
    with (inr [(15, 56, 15); (48, 98, 48); (139, 172, 15); (155, 188, 15)]%Z
          : result (list rgb)).
  cbn [bind_result].
  change (default 1.2 (contrast (mkOptions (Some 1) (Some 0)))) with 1.
  change (default 0.3 (edgeStrength (mkOptions (Some 1) (Some 0)))) with 0.
  change (0 <? 0) with false. cbv iota. rewrite Hcanvas.
  rewrite ditherAndColorize_inr by done. eexists. split; [reflexivity|].
  intros x y Hx Hy. rewrite <- Hw in Hx. rewrite <- Hh in Hy.
  destruct (mid_gray_level x y) as (k & Hk & Hodd & Hlevel).
  exists k. split; [exact Hk|]. split; [exact Hodd|].
  apply pixel_cells. intros c Hc.
  change (width (dithered_image ?i ?p)) with (width src).
  rewrite (dithered_image_lookup (applyContrast (toGrayscale src) 1)); try done.
  - unfold shade_at.
    change (width (applyContrast (toGrayscale src) 1)) with (width src).
    rewrite (mid_gray_luminance src x y Hwf Hgray Hx Hy), Hlevel.
    by destruct (8 <=? k)%Z.
  - rewrite applyContrast_length, toGrayscale_length. exact (wf_image_length _ Hwf).
Qed.

Lemma processFrame_mid_gray_witness :
  let src :=
    mkImageData 128 112 (concat (replicate (128 * 112) [128; 128; 128; 255]%Z)) in
  ∃ out,
    processFrame (λ _ img _ _, img) src "classic" (mkOptions (Some 1) (Some 0))
    = inr out ∧
    pixel out 0 0 = Some (48, 98, 48, 255)%Z ∧
    pixel out 1 0 = Some (139, 172, 15, 255)%Z ∧
    pixel out 0 1 = Some (139, 172, 15, 255)%Z ∧
    pixel out 1 1 = Some (48, 98, 48, 255)%Z ∧
    pixel out 2 0 = Some (48, 98, 48, 255)%Z.
Proof.
  intros src.
  destruct (processFrame_mid_gray (λ _ img _ _, img) src)
    as (_ & _ & _ & out & Hrun & Hpx);
    [reflexivity|reflexivity|vm_compute; reflexivity|vm_compute; reflexivity
    |reflexivity|].
  assert (∀ x y k, (x < GBC_WIDTH)%nat → (y < GBC_HEIGHT)%nat →
    bayer_matrix 2 !! (y mod 4)%nat ≫= (.!! (x mod 4)%nat) = Some k →
    pixel out x y
    = Some (if (8 <=? k)%Z then (139, 172, 15, 255)%Z else (48, 98, 48, 255)%Z))
    as Hat.
  { intros x y k Hx Hy Hk. destruct (Hpx x y Hx Hy) as (k' & Hk' & _ & Hp).
    rewrite Hk in Hk'. by injection Hk' as <-. }
  exists out. split; [exact Hrun|]. unfold GBC_WIDTH, GBC_HEIGHT in Hat.
  split; [apply (Hat 0%nat 0%nat 0%Z); [lia|lia|reflexivity]|].
  split; [apply (Hat 1%nat 0%nat 8%Z); [lia|lia|reflexivity]|].
  split; [apply (Hat 0%nat 1%nat 12%Z); [lia|lia|reflexivity]|].
  split; [apply (Hat 1%nat 1%nat 4%Z); [lia|lia|reflexivity]|].
  apply (Hat 2%nat 0%nat 2%Z); [lia|lia|reflexivity].
Defined.

(** ** Equality of images *)

(** Two well-formed images of the same size with the same pixels are equal. *)
Lemma image_ext img1 img2 :
  wf_image img1 = true → wf_image img2 = true →
  width img1 = width img2 → height img1 = height img2 →
  (∀ x y, (x < width img1)%nat → (y < height img1)%nat →
     pixel img1 x y = pixel img2 x y) →
  img1 = img2.
Proof.
  intros Hwf1 Hwf2 Hw Hh Hpx.
  pose proof (wf_image_length _ Hwf1) as Hlen1.
  pose proof (wf_image_length _ Hwf2) as Hlen2.
  assert (data img1 = data img2) as Hd.
  { apply list_eq. intros j.
    destruct (decide (j < 4 * (width img1 * height img1))%nat) as [Hj|Hj].
    - destruct (cell_coordinates _ _ _ Hj) as (x & y & c & (Hx & Hy & Hc) & ->).
      destruct (pixel_wf _ x y Hwf1 Hx Hy) as (r & g & b & a & Hp1 & _).
      pose proof Hp1 as Hp2. rewrite (Hpx x y Hx Hy) in Hp2.
      rewrite (proj1 (pixel_cells _ x y _) Hp1 c Hc).
      pose proof (proj1 (pixel_cells _ x y _) Hp2 c Hc) as Hc2.
      rewrite <- Hw in Hc2. by rewrite Hc2.
    - rewrite !lookup_ge_None_2; [done|lia..]. }
  destruct img1, img2. cbn in *. by subst.
Qed.

(** * Further properties of the code *)

(** ** Every stage keeps the buffer a well-formed image *)

Lemma round_half_even_nonneg m e : (0 ≤ m)%Z → (0 ≤ Js.round_half_even m e)%Z.
Proof.
  intros Hm. unfold Js.round_half_even.
  destruct (0 <=? e)%Z eqn:He.
  - apply Z.leb_le in He. apply Z.mul_nonneg_nonneg; [done|]. by apply Z.pow_nonneg.
  - apply Z.leb_gt in He.
    assert (0 < 2 ^ (- e))%Z by (apply Z.pow_pos_nonneg; lia).
    assert (0 ≤ m / 2 ^ (- e))%Z by (apply Z.div_pos; lia).
    cbv zeta. repeat case_match; lia.
Qed.

(** Whatever number is stored, the cell holds a byte. *)
Lemma ToUint8Clamp_byte x : is_byte (Js.ToUint8Clamp x) = true.
Proof.
  unfold Js.ToUint8Clamp.
  destruct (Prim2SF x) as [|[]| |[] m e]; try reflexivity.
  pose proof (round_half_even_nonneg (Z.pos m) e ltac:(lia)).
  unfold is_byte. apply andb_true_intro. split; [apply Z.leb_le|apply Z.ltb_lt]; lia.
Qed.

Lemma clamp_byte_is_byte z : is_byte (Js.clamp_byte z) = true.
Proof.
  unfold is_byte, Js.clamp_byte.
  apply andb_true_intro. split; [apply Z.leb_le|apply Z.ltb_lt]; lia.
Qed.

Definition bytes (d : list Z) : Prop := Forall (λ v, is_byte v = true) d.

Lemma wf_image_intro img :
  length (data img) = (4 * (width img * height img))%nat → bytes (data img) →
  wf_image img = true.
Proof.
  intros Hlen Hb. unfold wf_image. apply andb_true_intro. split.
  - by apply Nat.eqb_eq.
  - apply forallb_forall. intros v Hv. unfold bytes in Hb.
    rewrite Forall_forall in Hb. by apply Hb, list_elem_of_In.
Qed.

Lemma wf_image_bytes img : wf_image img = true → bytes (data img).
Proof.
  intros Hwf. apply Forall_forall. intros v [j Hj]%list_elem_of_lookup_1.
  by eapply wf_image_byte.
Qed.

Lemma bytes_insert i v d : bytes d → is_byte v = true → bytes (<[i := v]> d).
Proof. intros Hd Hv. by apply Forall_insert. Qed.

Lemma bytes_put i v d : bytes d → bytes (put i v d).
Proof. intros Hd. apply bytes_insert; [done|apply ToUint8Clamp_byte]. Qed.

Lemma bytes_foldl {K} (step : list Z → K → list Z) ks d :
  (∀ d k, bytes d → bytes (step d k)) → bytes d → bytes (foldl step d ks).
Proof.
  intros Hstep. revert d. induction ks as [|k ks IH]; intros d Hd; [done|].
  cbn. by apply IH, Hstep.
Qed.

Lemma for_each_invariant {A K} (P : A → Prop) (body : A → K → result A) a ks a' :
  (∀ a k a', P a → body a k = inr a' → P a') →
  P a → for_each body a ks = inr a' → P a'.
Proof.
  intros Hbody. revert a. induction ks as [|k ks IH]; intros a Ha Hrun.
  - cbn in Hrun. by simplify_eq.
  - cbn in Hrun. destruct (body a k) as [e|a1] eqn:Hk; [done|].
    cbn in Hrun. eapply IH; [|done]. by eapply Hbody.
Qed.

Lemma ditherAndColorize_step_keeps paletteRgb w d yx d' :
  ditherAndColorize_step paletteRgb w d yx = inr d' →
  length d' = length d ∧ (bytes d → bytes d').
Proof.
  destruct yx as [y x]. unfold ditherAndColorize_step. cbv zeta.
  destruct (paletteRgb !! _) as [[[r g] b]|]; [|done]. intros [= <-].
  rewrite !length_insert. split; [done|]. intros Hd.
  repeat apply bytes_insert; try done; apply clamp_byte_is_byte.
Qed.

Lemma ditherAndColorize_keeps img paletteRgb out :
  ditherAndColorize img paletteRgb = inr out →
  width out = width img ∧ height out = height img
  ∧ length (data out) = length (data img)
  ∧ (bytes (data img) → bytes (data out)).
Proof.
  unfold ditherAndColorize. cbv zeta.
  destruct (for_each _ _ _) as [e|d] eqn:Hrun; [done|]. cbn. intros [= <-]. cbn.
  split; [done|]. split; [done|].
  apply (for_each_invariant
    (λ d, length d = length (data img) ∧ (bytes (data img) → bytes d))) in Hrun;
    [done| |done].
  intros d0 y d1 Hd0 Hy.
  apply (for_each_invariant
    (λ d, length d = length (data img) ∧ (bytes (data img) → bytes d))) in Hy;
    [done| |done].
  intros d2 x d3 [Hl Hb] Hx.
  apply ditherAndColorize_step_keeps in Hx as [Hl' Hb'].
  split; [congruence|auto].
Qed.

Lemma toGrayscale_wf img : wf_image img = true → wf_image (toGrayscale img) = true.
Proof.
  intros Hwf. apply wf_image_intro.
  - rewrite toGrayscale_length. exact (wf_image_length _ Hwf).
  - apply bytes_foldl; [|by apply wf_image_bytes]. intros d k Hd.
    unfold toGrayscale_step. by repeat apply bytes_put.
Qed.

Lemma applyContrast_wf img factor :
  wf_image img = true → wf_image (applyContrast img factor) = true.
Proof.
  intros Hwf. apply wf_image_intro.
  - rewrite applyContrast_length. exact (wf_image_length _ Hwf).
  - apply bytes_foldl; [|by apply wf_image_bytes]. intros d k Hd.
    unfold applyContrast_step. by repeat apply bytes_put.
Qed.

Lemma edgeEnhance_wf img strength :
  wf_image img = true → wf_image (edgeEnhance img strength) = true.
Proof.
  intros Hwf. apply wf_image_intro.
  - rewrite edgeEnhance_length. exact (wf_image_length _ Hwf).
  - unfold edgeEnhance. cbn [data].
    apply bytes_foldl; [|by apply wf_image_bytes]. intros d y Hd.
    apply bytes_foldl; [|done]. intros d' x Hd'. unfold edgeEnhance_step.
    by repeat apply bytes_put.
Qed.

Lemma ditherAndColorize_wf img paletteRgb out :
  wf_image img = true → ditherAndColorize img paletteRgb = inr out →
  wf_image out = true.
Proof.
  intros Hwf Hrun.
  apply ditherAndColorize_keeps in Hrun as (Hw & Hh & Hl & Hbo).
  apply wf_image_intro.
  - rewrite Hl, Hw, Hh. exact (wf_image_length _ Hwf).
  - by apply Hbo, wf_image_bytes.
Qed.

(** [out] has the width, the height and the number of cells of [img]. *)
Definition same_size (img out : ImageData) : Prop :=
  width out = width img ∧ height out = height img
  ∧ length (data out) = length (data img).

(** The stages keep the size of the image and leave bytes in every cell:
    [toGrayscale], [applyContrast] (any factor), [edgeEnhance] (any
    strength) and [ditherAndColorize] (any palette with which it returns)
    map a well-formed image to a well-formed image of the same width,
    height and number of cells. *)
Theorem stages_keep_wf_image img :
  wf_image img = true →
  (same_size img (toGrayscale img) ∧ wf_image (toGrayscale img) = true) ∧
  (∀ factor,
     same_size img (applyContrast img factor)
     ∧ wf_image (applyContrast img factor) = true) ∧
  (∀ strength,
     same_size img (edgeEnhance img strength)
     ∧ wf_image (edgeEnhance img strength) = true) ∧
  (∀ paletteRgb out,
     ditherAndColorize img paletteRgb = inr out →
     same_size img out ∧ wf_image out = true).
Proof.
  intros Hwf. unfold same_size. split_and!.
  - done.
  - done.
  - apply toGrayscale_length.
  - by apply toGrayscale_wf.
  - intros factor. split_and!; [done|done|apply applyContrast_length|].
    by apply applyContrast_wf.
  - intros strength. split_and!; [done|done|apply edgeEnhance_length|].
    by apply edgeEnhance_wf.
  - intros pal out Hrun. split; [|by eapply ditherAndColorize_wf].
    by apply ditherAndColorize_keeps in Hrun as (? & ? & ? & _).
Qed.

Lemma stages_keep_wf_image_witness :
  let img := mkImageData 3 3
    [ 10; 20; 30; 255;  200; 100; 50; 255;  90; 90; 90; 255;
      60; 70; 80; 255;  120; 130; 140; 0;   250; 0; 5; 255;
       0;  0;  0; 255;  255; 255; 255; 255; 33; 66; 99; 128]%Z in
  let pal := [(1, 2, 3); (4, 5, 6); (7, 8, 9); (10, 11, 12)]%Z in
  (same_size img (toGrayscale img) ∧ wf_image (toGrayscale img) = true) ∧
  (same_size img (applyContrast img 1.2)
   ∧ wf_image (applyContrast img 1.2) = true) ∧
  (same_size img (edgeEnhance img 0.3)
   ∧ wf_image (edgeEnhance img 0.3) = true) ∧
  edgeEnhance img 0.3 ≠ img ∧
  ∃ out, ditherAndColorize img pal = inr out ∧ out ≠ img
       ∧ same_size img out ∧ wf_image out = true.
Proof.
  intros img pal.
  destruct (stages_keep_wf_image img) as (Hg & Hc & He & Hd); [reflexivity|].
  split; [exact Hg|]. split; [exact (Hc 1.2)|]. split; [exact (He 0.3)|].
  split; [by vm_compute|].
  destruct (ditherAndColorize img pal) as [e|out] eqn:Hrun;
    [by vm_compute in Hrun|].
  exists out. split; [reflexivity|]. split; [|exact (Hd pal out Hrun)].
  intros ->. by vm_compute in Hrun.
Defined.

(** [processFrame] returns, when it returns, a well-formed image of 128 by
    112 pixels, whatever the size of the source, the palette and the
    options. *)
Theorem processFrame_shape canvas src paletteKey options out :
  canvas_image (canvas true src GBC_WIDTH GBC_HEIGHT) GBC_WIDTH GBC_HEIGHT = true →
  processFrame canvas src paletteKey options = inr out →
  width out = GBC_WIDTH ∧ height out = GBC_HEIGHT
  ∧ length (data out) = (4 * (GBC_WIDTH * GBC_HEIGHT))%nat ∧ wf_image out = true.
Proof.
  intros Hcanvas Hrun. apply canvas_image_spec in Hcanvas as (Hw & Hh & Hwf).
  unfold processFrame, downscale in Hrun.
  destruct (getPaletteRgb paletteKey) as [e|pal]; [done|]. cbn [bind_result] in Hrun.
  set (down := canvas true src GBC_WIDTH GBC_HEIGHT) in *.
  pose proof (applyContrast_wf _ (default 1.2 (contrast options))
                (toGrayscale_wf down Hwf)) as Hc.
  pose proof (edgeEnhance_wf _ (default 0.3 (edgeStrength options)) Hc) as He.
  pose proof (ditherAndColorize_wf _ pal out Hc) as Hd.
  pose proof (ditherAndColorize_wf _ pal out He) as Hd'.
  assert (wf_image out = true ∧ width out = width down ∧ height out = height down)
    as (Hout & Hwo & Hho).
  { destruct (0 <? default 0.3 (edgeStrength options)).
    - split; [by eapply Hd'|]. by apply ditherAndColorize_keeps in Hrun as (-> & -> & _).
    - split; [by eapply Hd|]. by apply ditherAndColorize_keeps in Hrun as (-> & -> & _). }
  rewrite Hw in Hwo. rewrite Hh in Hho.
  pose proof (wf_image_length _ Hout) as Hl. rewrite Hwo, Hho in Hl.
  exact (conj Hwo (conj Hho (conj Hl Hout))).
Qed.

Lemma processFrame_shape_witness :
  let canvas := λ (_ : bool) (_ : ImageData) (dw dh : nat),
    mkImageData dw dh (replicate (4 * (dw * dh)) 7%Z) in
  let src := mkImageData 1 1 [1; 2; 3; 4]%Z in
  ∃ out,
    processFrame canvas src "teal" (mkOptions None None) = inr out
    ∧ width out = GBC_WIDTH ∧ height out = GBC_HEIGHT.
Proof.
  intros canvas src.
  set (pal := hexToRgb <$> ["#0d1b0e"; "#1a5c2a"; "#3cb460"; "#9fffb0"]).
  set (gray := edgeEnhance
    (applyContrast (toGrayscale (canvas true src GBC_WIDTH GBC_HEIGHT)) 1.2) 0.3).
  assert (processFrame canvas src "teal" (mkOptions None None)
          = inr (dithered_image gray pal)) as Hrun.
  { unfold processFrame, downscale.
    change (getPaletteRgb "teal") with (inr pal : result (list rgb)).
    cbn [bind_result].
    change (default 1.2 (contrast (mkOptions None None))) with 1.2.
    change (default 0.3 (edgeStrength (mkOptions None None))) with 0.3.
    change (0 <? 0.3) with true. cbv iota.
    apply ditherAndColorize_inr. reflexivity. }
  exists (dithered_image gray pal). split; [exact Hrun|].
  destruct (processFrame_shape canvas src "teal" (mkOptions None None)
              (dithered_image gray pal)) as (Hw & Hh & _);
    [vm_compute; reflexivity|exact Hrun|exact (conj Hw Hh)].
Defined.

(** ** The tone stage, pixel by pixel *)

Lemma cell_of_pixel w h x y c :
  (x < w)%nat → (y < h)%nat → (c < 4)%nat →
  (offset w x y + c < 4 * (w * h))%nat
  ∧ (4 * ((offset w x y + c) / 4) = offset w x y)%nat
  ∧ ((offset w x y + c) mod 4 = c)%nat.
Proof. intros Hx Hy Hc. unfold offset. split; [nia|]. split; dlia. Qed.

Lemma luminance_pixel img x y r g b a :
  pixel img x y = Some (r, g, b, a) →
  luminance (data img) (offset (width img) x y)
  = 0.299 * Js.of_Z r + 0.587 * Js.of_Z g + 0.114 * Js.of_Z b.
Proof.
  intros H. unfold luminance, get.
  pose proof (proj1 (pixel_cells _ _ _ _) H 0%nat ltac:(lia)) as H0.
  rewrite Nat.add_0_r in H0.
  rewrite H0, (proj1 (pixel_cells _ _ _ _) H 1%nat), (proj1 (pixel_cells _ _ _ _) H 2%nat)
    by lia.
  done.
Qed.

Lemma toGrayscale_pixel img x y r g b a :
  wf_image img = true → (x < width img)%nat → (y < height img)%nat →
  pixel img x y = Some (r, g, b, a) →
  let lum := Js.ToUint8Clamp
               (0.299 * Js.of_Z r + 0.587 * Js.of_Z g + 0.114 * Js.of_Z b) in
  pixel (toGrayscale img) x y = Some (lum, lum, lum, a).
Proof.
  intros Hwf Hx Hy Hpx lum. pose proof (wf_image_length _ Hwf) as Hlen.
  apply pixel_cells. intros c Hc.
  change (width (toGrayscale img)) with (width img).
  destruct (cell_of_pixel _ _ x y c Hx Hy Hc) as (Hlt & Hbase & Hmod).
  rewrite (toGrayscale_lookup _ (width img * height img)) by done.
  rewrite Hlen, Hbase, (luminance_pixel img x y r g b a Hpx).
  destruct (decide (c < 3)%nat).
  - rewrite decide_True by lia. by destruct c as [|[|[|c]]]; [..|lia].
  - rewrite decide_False by lia. assert (c = 3)%nat as -> by lia.
    by apply (proj1 (pixel_cells img x y _) Hpx).
Qed.

Lemma applyContrast_pixel img factor x y r g b a :
  wf_image img = true → (x < width img)%nat → (y < height img)%nat →
  pixel img x y = Some (r, g, b, a) →
  let v := Js.ToUint8Clamp (applyContrast_value (Js.of_Z r) factor) in
  pixel (applyContrast img factor) x y = Some (v, v, v, a).
Proof.
  intros Hwf Hx Hy Hpx v. pose proof (wf_image_length _ Hwf) as Hlen.
  apply pixel_cells. intros c Hc.
  change (width (applyContrast img factor)) with (width img).
  destruct (cell_of_pixel _ _ x y c Hx Hy Hc) as (Hlt & Hbase & Hmod).
  rewrite (applyContrast_lookup _ _ (width img * height img)) by done.
  rewrite Hlen, Hbase, (get_red img x y r g b a Hpx).
  destruct (decide (c < 3)%nat).
  - rewrite decide_True by lia. by destruct c as [|[|[|c]]]; [..|lia].
  - rewrite decide_False by lia. assert (c = 3)%nat as -> by lia.
    by apply (proj1 (pixel_cells img x y _) Hpx).
Qed.

Lemma luminance_of_gray v :
  is_byte v = true →
  Js.ToUint8Clamp (0.299 * Js.of_Z v + 0.587 * Js.of_Z v + 0.114 * Js.of_Z v) = v.
Proof.
  intros Hv. apply Z.eqb_eq.
  apply (all_bytes (λ v, Js.ToUint8Clamp
           (0.299 * Js.of_Z v + 0.587 * Js.of_Z v + 0.114 * Js.of_Z v) =? v)%Z);
    [by vm_compute|done].
Qed.

(** [toGrayscale] gives the three colour channels of every pixel the BT.601
    luminance of its red, green and blue values, rounded to a byte, and
    keeps its alpha; the image keeps its size. *)
Theorem toGrayscale_luminance img x y r g b a :
  wf_image img = true → (x < width img)%nat → (y < height img)%nat →
  pixel img x y = Some (r, g, b, a) →
  let lum := Js.ToUint8Clamp
               (0.299 * Js.of_Z r + 0.587 * Js.of_Z g + 0.114 * Js.of_Z b) in
  width (toGrayscale img) = width img ∧ height (toGrayscale img) = height img ∧
  pixel (toGrayscale img) x y = Some (lum, lum, lum, a).
Proof.
  intros Hwf Hx Hy Hpx lum. split; [done|]. split; [done|].
  by apply toGrayscale_pixel.
Qed.

Lemma toGrayscale_luminance_witness :
  pixel (toGrayscale (mkImageData 2 1 [10; 20; 30; 255; 255; 0; 0; 9]%Z)) 1 0
  = Some (76, 76, 76, 9)%Z.
Proof.
  apply (toGrayscale_luminance (mkImageData 2 1 [10; 20; 30; 255; 255; 0; 0; 9]%Z)
           1 0 255 0 0 9); [reflexivity|cbn; lia|cbn; lia|reflexivity].
Defined.

(** [toGrayscale] is idempotent: the luminance of a gray pixel (v, v, v)
    rounds back to v for each of the 256 byte values, so a second pass
    changes nothing. *)
Theorem toGrayscale_idempotent img :
  wf_image img = true → toGrayscale (toGrayscale img) = toGrayscale img.
Proof.
  intros Hwf. pose proof (toGrayscale_wf _ Hwf) as Hwf1.
  apply image_ext; try done; [by apply toGrayscale_wf|].
  intros x y Hx Hy.
  destruct (pixel_wf img x y Hwf Hx Hy) as (r & g & b & a & Hpx & _).
  pose proof (toGrayscale_pixel img x y r g b a Hwf Hx Hy Hpx) as H1.
  cbv zeta in H1. rewrite H1.
  pose proof (toGrayscale_pixel _ x y _ _ _ _ Hwf1 Hx Hy H1) as H2.
  cbv zeta in H2. rewrite H2.
  by rewrite luminance_of_gray by apply ToUint8Clamp_byte.
Qed.

Lemma toGrayscale_idempotent_witness :
  toGrayscale (toGrayscale (mkImageData 2 1 [10; 20; 30; 255; 255; 0; 0; 9]%Z))
  = toGrayscale (mkImageData 2 1 [10; 20; 30; 255; 255; 0; 0; 9]%Z).
Proof. apply toGrayscale_idempotent. reflexivity. Defined.

Lemma contrast_zero_byte v :
  is_byte v = true → Js.ToUint8Clamp (applyContrast_value (Js.of_Z v) 0) = 128%Z.
Proof.
  intros Hv. apply Z.eqb_eq.
  apply (all_bytes (λ v, Js.ToUint8Clamp (applyContrast_value (Js.of_Z v) 0) =? 128)%Z);
    [by vm_compute|done].
Qed.

(** [applyContrast] replaces the three colour channels of every pixel by
    [clamp(((r / 255 - 0.5) * factor + 0.5) * 255, 0, 255)] computed from
    its red channel and rounded to a byte, and keeps alpha; with factor 0
    every pixel becomes (128, 128, 128): 127.5 rounds to the even
    neighbour. *)
Theorem applyContrast_pixels img factor x y r g b a :
  wf_image img = true → (x < width img)%nat → (y < height img)%nat →
  pixel img x y = Some (r, g, b, a) →
  (let v := Js.ToUint8Clamp
              (Js.Math_max 0 (Js.Math_min 255
                 (((Js.of_Z r / 255 - 0.5) * factor + 0.5) * 255))) in
   pixel (applyContrast img factor) x y = Some (v, v, v, a)) ∧
  pixel (applyContrast img 0) x y = Some (128, 128, 128, a)%Z.
Proof.
  intros Hwf Hx Hy Hpx. split; [by apply (applyContrast_pixel img factor x y r g b a)|].
  pose proof (applyContrast_pixel img 0 x y r g b a Hwf Hx Hy Hpx) as H.
  cbv zeta in H. rewrite H.
  destruct (pixel_wf img x y Hwf Hx Hy) as (r' & g' & b' & a' & Hpx' & Hr & _).
  rewrite Hpx in Hpx'. injection Hpx' as <- <- <- <-.
  by rewrite contrast_zero_byte.
Qed.

Lemma applyContrast_pixels_witness :
  pixel (applyContrast (mkImageData 1 1 [200; 200; 200; 9]%Z) 0) 0 0
  = Some (128, 128, 128, 9)%Z.
Proof.
  apply (applyContrast_pixels (mkImageData 1 1 [200; 200; 200; 9]%Z) 0 0 0 200 200 200 9);
    [reflexivity|cbn; lia|cbn; lia|reflexivity].
Defined.

(** ** The ditherer as a function of brightness and position *)

(** The level of a byte [v] under the threshold [k / 16]. *)
Definition level_of (k v : Z) : nat :=
  quantize (Js.of_Z v / 255 + (Js.of_Z k / 16 - 0.5) * 0.33).

Lemma dither_level_of x y v :
  ∃ k, (0 ≤ k < 16)%Z ∧ quantize (dither (Js.of_Z v) x y) = level_of k v.
Proof.
  destruct (bayer_at_matrix y x) as (k & Hk & _ & Hb). exists k. split; [done|].
  unfold dither, level_of. by rewrite Hb.
Qed.

Lemma level_of_step k v :
  (0 ≤ k < 16)%Z → (0 ≤ v < 255)%Z → (level_of k v ≤ level_of k (v + 1))%nat.
Proof.
  intros Hk Hv.
  set (P := λ v, (v =? 255)%Z || forallb (λ k,
    Nat.leb (level_of k v) (level_of k (v + 1))) (seqZ 0 16)).
  assert (P v = true) as HP.
  { apply all_bytes; [by vm_compute|].
    unfold is_byte. apply andb_true_intro. split; [apply Z.leb_le|apply Z.ltb_lt]; lia. }
  unfold P in HP. apply orb_prop in HP as [HP|HP]; [apply Z.eqb_eq in HP; lia|].
  rewrite forallb_forall in HP. apply Nat.leb_le, HP, list_elem_of_In, elem_of_seqZ. lia.
Qed.

Lemma level_of_monotone k v (n : nat) :
  (0 ≤ k < 16)%Z → (0 ≤ v)%Z → (v + Z.of_nat n < 256)%Z →
  (level_of k v ≤ level_of k (v + Z.of_nat n))%nat.
Proof.
  intros Hk Hv. induction n as [|n IH]; intros Hn.
  - by rewrite Z.add_0_r.
  - etrans; [apply IH; lia|].
    replace (v + Z.of_nat (S n))%Z with (v + Z.of_nat n + 1)%Z by lia.
    apply level_of_step; lia.
Qed.

Lemma level_of_ends k :
  (0 ≤ k < 16)%Z → level_of k 0 = 0%nat ∧ level_of k 255 = 3%nat.
Proof.
  intros Hk.
  assert (forallb (λ k, Nat.eqb (level_of k 0) 0 && Nat.eqb (level_of k 255) 3)
            (seqZ 0 16) = true) as H by (by vm_compute).
  rewrite forallb_forall in H.
  assert (In k (seqZ 0 16)) as Hin by (apply list_elem_of_In, elem_of_seqZ; lia).
  apply H in Hin. apply andb_prop in Hin as [?%Nat.eqb_eq ?%Nat.eqb_eq]. done.
Qed.

(** At a given position a brighter pixel never gets a darker level; value
    0 gets level 0 and value 255 level 3 at every position; and the
    pattern repeats every four pixels in both directions. *)
Theorem dither_monotone_and_periodic x y v1 v2 :
  is_byte v1 = true → is_byte v2 = true → (v1 ≤ v2)%Z →
  (quantize (dither (Js.of_Z v1) x y) ≤ quantize (dither (Js.of_Z v2) x y))%nat ∧
  quantize (dither (Js.of_Z 0) x y) = 0%nat ∧
  quantize (dither (Js.of_Z 255) x y) = 3%nat ∧
  (∀ v, dither v (x + 4) y = dither v x y ∧ dither v x (y + 4) = dither v x y).
Proof.
  intros H1 H2 Hle.
  unfold is_byte in H1, H2.
  apply andb_prop in H1 as [?%Z.leb_le ?%Z.ltb_lt].
  apply andb_prop in H2 as [?%Z.leb_le ?%Z.ltb_lt].
  destruct (bayer_at_matrix y x) as (k & Hk & _ & Hb).
  assert (∀ v, quantize (dither (Js.of_Z v) x y) = level_of k v) as Hlev.
  { intros v. unfold dither, level_of. by rewrite Hb. }
  rewrite !Hlev. destruct (level_of_ends k Hk) as [Hlow Hhigh].
  split; [|split; [done|split; [done|]]].
  - replace v2 with (v1 + Z.of_nat (Z.to_nat (v2 - v1)))%Z by lia.
    apply level_of_monotone; lia.
  - intros v. unfold dither, bayer_at.
    replace ((x + 4) mod 4)%nat with (x mod 4)%nat by dlia.
    replace ((y + 4) mod 4)%nat with (y mod 4)%nat by dlia. done.
Qed.

Lemma dither_monotone_and_periodic_witness :
  (quantize (dither (Js.of_Z 100) 2 3) ≤ quantize (dither (Js.of_Z 180) 2 3))%nat.
Proof.
  apply (dither_monotone_and_periodic 2 3 100 180); [reflexivity|reflexivity|lia].
Defined.

(** ** Palette colours *)

Definition hex_char (upper : bool) (n : Z) : ascii :=
  if (n <? 10)%Z then ascii_of_N (Z.to_N (48 + n))
  else ascii_of_N (Z.to_N ((if upper then 55 else 87) + n)).

(** The notation [#rrggbb] of three bytes: two hexadecimal digits each. *)
Definition hex6 (upper : bool) (r g b : Z) : string :=
  String "#"
    (String (hex_char upper (r / 16)) (String (hex_char upper (r mod 16))
    (String (hex_char upper (g / 16)) (String (hex_char upper (g mod 16))
    (String (hex_char upper (b / 16)) (String (hex_char upper (b mod 16))
     EmptyString)))))).

Lemma hex_digit_hex_char upper n :
  (0 ≤ n < 16)%Z → hex_digit (hex_char upper n) = Some n.
Proof.
  intros Hn.
  assert (n ∈ seqZ 0 16) as Hin by (apply elem_of_seqZ; lia).
  destruct upper; vm_compute in Hin;
    repeat (apply elem_of_cons in Hin as [->|Hin]; [reflexivity|]);
    by apply elem_of_nil in Hin.
Qed.

Lemma parseInt16_digits upper d1 d2 d3 d4 d5 d6 :
  (0 ≤ d1 < 16)%Z → (0 ≤ d2 < 16)%Z → (0 ≤ d3 < 16)%Z →
  (0 ≤ d4 < 16)%Z → (0 ≤ d5 < 16)%Z → (0 ≤ d6 < 16)%Z →
  parseInt16
    (String (hex_char upper d1) (String (hex_char upper d2)
    (String (hex_char upper d3) (String (hex_char upper d4)
    (String (hex_char upper d5) (String (hex_char upper d6) EmptyString))))))
  = Some (((((d1 * 16 + d2) * 16 + d3) * 16 + d4) * 16 + d5) * 16 + d6)%Z.
Proof.
  intros H1 H2 H3 H4 H5 H6.
  set (rest := String (hex_char upper d3) _).
  assert (∀ acc, (0 ≤ acc < 256)%Z →
    hex_prefix (Some acc) rest
    = Some ((((acc * 16 + d3) * 16 + d4) * 16 + d5) * 16 + d6)%Z) as Hrest.
  { intros acc Hacc. unfold rest. cbn [hex_prefix].
    rewrite !hex_digit_hex_char by done. done. }
  assert (parseInt16 (String (hex_char upper d1) (String (hex_char upper d2) rest))
          = n ← hex_prefix (Some (d1 * 16 + d2)%Z) rest;
            n ← number_of_integer n; Some n) as ->.
  { assert (d1 ∈ seqZ 0 16) as Hi1 by (apply elem_of_seqZ; lia).
    assert (d2 ∈ seqZ 0 16) as Hi2 by (apply elem_of_seqZ; lia).
    clearbody rest. clear Hrest.
    destruct upper; vm_compute in Hi1;
      repeat (apply elem_of_cons in Hi1 as [->|Hi1];
              [vm_compute in Hi2;
               repeat (apply elem_of_cons in Hi2 as [->|Hi2]; [reflexivity|]);
               by apply elem_of_nil in Hi2|]);
      by apply elem_of_nil in Hi1. }
  rewrite Hrest by lia. cbn [mbind option_bind].
  unfold number_of_integer.
  assert (((((d1 * 16 + d2) * 16 + d3) * 16 + d4) * 16 + d5) * 16 + d6 < 2 ^ 53)%Z
    as ->%Z.ltb_lt by lia.
  done.
Qed.

(** [hexToRgb] decodes the notation [#rrggbb], in lower or upper case, to
    the three bytes it denotes. *)
Theorem hexToRgb_decodes upper r g b :
  is_byte r = true → is_byte g = true → is_byte b = true →
  hexToRgb (hex6 upper r g b) = (r, g, b).
Proof.
  unfold is_byte. intros [?%Z.leb_le ?%Z.ltb_lt]%andb_prop
    [?%Z.leb_le ?%Z.ltb_lt]%andb_prop [?%Z.leb_le ?%Z.ltb_lt]%andb_prop.
  unfold hexToRgb, hex6. cbn [slice1].
  rewrite parseInt16_digits by (split; dlia).
  set (n := (((((r / 16 * 16 + r mod 16) * 16 + g / 16) * 16 + g mod 16) * 16
              + b / 16) * 16 + b mod 16)%Z).
  assert (n = r * 65536 + g * 256 + b)%Z as Hn by (unfold n; dlia).
  assert (ToInt32 (Some n) = n) as ->.
  { unfold ToInt32. rewrite Z.mod_small by lia.
    assert ((2 ^ 31 <=? n)%Z = false) as -> by (apply Z.leb_gt; lia). done. }
  change 255%Z with (Z.ones 8). rewrite !Z.land_ones, !Z.shiftr_div_pow2 by lia.
  rewrite Hn. f_equal; [f_equal|]; dlia.
Qed.

Lemma hexToRgb_decodes_witness : hexToRgb "#8BAC0F" = (139, 172, 15)%Z.
Proof. apply (hexToRgb_decodes true 139 172 15); reflexivity. Defined.

(** On every string of code units below 256, [hexToRgb] returns three
    bytes.  White space after the first character (TAB, LF, VT, FF, CR,
    SP or NBSP, code units 9 to 13, 32 and 160) is skipped.  A string
    whose second character is neither white space, nor a sign, nor a
    hexadecimal digit holds no number: [parseInt] gives NaN and the result
    is black. *)
Theorem hexToRgb_lenient hex :
  rgb_is_byte (hexToRgb hex) = true ∧
  (∀ c n, n ∈ [9; 10; 11; 12; 13; 32; 160]%N →
     hexToRgb (String c (String (ascii_of_N n) hex)) = hexToRgb (String c hex)) ∧
  (∀ c a,
     N_of_ascii a ∉ [9; 10; 11; 12; 13; 32; 160]%N →
     N_of_ascii a ∉ [43; 45]%N →
     ¬ (48 ≤ N_of_ascii a ≤ 57 ∨ 65 ≤ N_of_ascii a ≤ 70
        ∨ 97 ≤ N_of_ascii a ≤ 102)%N →
     hexToRgb (String c (String a hex)) = (0, 0, 0)%Z).
Proof.
  split; [apply hexToRgb_byte|]. split.
  - intros c n Hn. repeat (apply elem_of_cons in Hn as [->|Hn]; [reflexivity|]).
    by apply elem_of_nil in Hn.
  - intros c a. remember (N_of_ascii a) as n eqn:Hn. intros Hws Hsign Hhex.
    destruct a as [b0 b1 b2 b3 b4 b5 b6 b7].
    destruct b0, b1, b2, b3, b4, b5, b6, b7; vm_compute in Hn; subst n;
      first [ reflexivity
            | exfalso; apply Hws; by repeat constructor
            | exfalso; apply Hsign; by repeat constructor
            | exfalso; apply Hhex; lia ].
Qed.

Lemma hexToRgb_lenient_witness :
  hexToRgb (String "#" (String (ascii_of_N 160) "ff")) = (0, 0, 255)%Z ∧
  hexToRgb (String "#" (String (ascii_of_N 9) " 0x8BAC0f")) = (139, 172, 15)%Z ∧
  hexToRgb "#zzzzzz" = (0, 0, 0)%Z ∧
  hexToRgb "##306230" = (0, 0, 0)%Z.
Proof.
  split; [|split; [|split]].
  - rewrite (proj1 (proj2 (hexToRgb_lenient "ff")) "#"%char 160%N)
      by (by repeat constructor).
    reflexivity.
  - rewrite (proj1 (proj2 (hexToRgb_lenient " 0x8BAC0f")) "#"%char 9%N)
      by (by repeat constructor).
    reflexivity.
  - apply (proj2 (proj2 (hexToRgb_lenient "zzzzz")) "#"%char "z"%char);
      apply (bool_decide_unpack _); by vm_compute.
  - apply (proj2 (proj2 (hexToRgb_lenient "306230")) "#"%char "#"%char);
      apply (bool_decide_unpack _); by vm_compute.
Defined.

(** [getPaletteRgb] returns for each of the six registered keys, and gives
    four colours whose channels are bytes; for every other key it throws. *)
Theorem getPaletteRgb_registered paletteKey :
  (paletteKey ∈ registered_keys →
   ∃ paletteRgb, getPaletteRgb paletteKey = inr paletteRgb
     ∧ length paletteRgb = 4%nat
     ∧ Forall (λ c, rgb_is_byte c = true) paletteRgb) ∧
  (paletteKey ∉ registered_keys → ∃ e, getPaletteRgb paletteKey = inl e).
Proof.
  split.
  - intros Hin. destruct (PALETTES_registered _ Hin) as (p & Hp & Hlen).
    exists (hexToRgb <$> colors p).
    assert (getPaletteRgb paletteKey = inr (hexToRgb <$> colors p)) as Hget
      by (unfold getPaletteRgb, PALETTES_get; by rewrite Hp).
    split; [done|]. by apply getPaletteRgb_inr in Hget as (_ & ? & ?).
  - intros Hout. unfold getPaletteRgb, PALETTES_get.
    rewrite (PALETTES_unregistered _ Hout). case_bool_decide; eauto.
Qed.

Lemma getPaletteRgb_registered_witness :
  ∃ paletteRgb, getPaletteRgb "amber" = inr paletteRgb
    ∧ length paletteRgb = 4%nat
    ∧ Forall (λ c, rgb_is_byte c = true) paletteRgb.
Proof.
  apply (proj1 (getPaletteRgb_registered "amber")).
  unfold registered_keys. rewrite !elem_of_cons. auto.
Defined.

(** An unregistered key stops [processFrame] before any stage: the result
    is the [Unknown palette] error carrying the key, except for the names
    of the members of [Object.prototype], where it is the engine's
    [TypeError]. *)
Theorem processFrame_unknown_key canvas src paletteKey options :
  paletteKey ∉ registered_keys →
  processFrame canvas src paletteKey options
  = inl (if bool_decide (paletteKey ∈ Object_prototype_keys)
         then TypeError
         else Error ("Unknown palette: " +:+ paletteKey)).
Proof. apply processFrame_unregistered. Qed.

Lemma processFrame_unknown_key_witness :
  processFrame (λ _ img _ _, img) (mkImageData 1 1 [1; 2; 3; 4]%Z) "nonexistent"
    (mkOptions None None)
  = inl (Error "Unknown palette: nonexistent").
Proof.
  apply (processFrame_unknown_key (λ _ img _ _, img) (mkImageData 1 1 [1; 2; 3; 4]%Z)
           "nonexistent" (mkOptions None None)).
  unfold registered_keys. rewrite !elem_of_cons, elem_of_nil.
  intros [|[|[|[|[|[|[]]]]]]]; discriminate.
Defined.

(** ** Images without interior pixels *)

(** An image less than three pixels wide or high has no interior pixel:
    [edgeEnhance] returns it unchanged, whatever the strength. *)
Theorem edgeEnhance_no_interior img strength :
  (width img < 3 ∨ height img < 3)%nat → edgeEnhance img strength = img.
Proof.
  intros H. destruct img as [w h d]. unfold edgeEnhance. cbn [width height data] in *.
  f_equal. destruct H as [H|H].
  - replace (w - 2)%nat with 0%nat by lia. cbn [seq foldl].
    induction (seq 1 (h - 2)) as [|y ys IH]; [done|]. done.
  - by replace (h - 2)%nat with 0%nat by lia.
Qed.

Lemma edgeEnhance_no_interior_witness :
  edgeEnhance (mkImageData 2 1 [10; 20; 30; 255; 255; 0; 0; 9]%Z) 0.3
  = mkImageData 2 1 [10; 20; 30; 255; 255; 0; 0; 9]%Z.
Proof. apply edgeEnhance_no_interior. cbn. lia. Defined.

(** ** Flat regions under the edge enhancer *)

(** The red channel of pixel [(x, y)]. *)
Definition red_at (img : ImageData) (x y : nat) : option Z :=
  data img !! offset (width img) x y.

Lemma lum_at_red img x y v : red_at img x y = Some v → lum_at img x y = Js.of_Z v.
Proof. unfold red_at, lum_at, get. by intros ->. Qed.

Lemma red_at_wf img x y :
  wf_image img = true → (x < width img)%nat → (y < height img)%nat →
  ∃ v, red_at img x y = Some v ∧ is_byte v = true.
Proof.
  intros Hwf Hx Hy.
  destruct (pixel_wf img x y Hwf Hx Hy) as (r & g & b & a & Hpx & Hr & _).
  exists r. split; [|done].
  apply pixel_cells with (c := 0%nat) in Hpx; [|lia].
  by rewrite Nat.add_0_r in Hpx.
Qed.

(** A corner of the neighbourhood contributes exactly zero. *)
Lemma corner_term v : is_byte v = true → Js.of_Z v * 0 = 0.
Proof.
  intros Hv. apply FloatAxioms.Leibniz.eqb_spec.
  apply (all_bytes (λ v, PrimFloat.Leibniz.eqb (Js.of_Z v * 0) 0)); [by vm_compute|done].
Qed.

Lemma flat_blend v :
  is_byte v = true →
  Js.ToUint8Clamp (Js.Math_max 0 (Js.Math_min 255
    (Js.of_Z v * (1 - 0.3)
     + (0 + 0 + Js.of_Z v * (-1) + 0 + Js.of_Z v * (-1) + Js.of_Z v * 5
        + Js.of_Z v * (-1) + 0 + Js.of_Z v * (-1) + 0) * 0.3))) = v.
Proof.
  intros Hv. apply Z.eqb_eq.
  apply (all_bytes (λ v, Js.ToUint8Clamp (Js.Math_max 0 (Js.Math_min 255
    (Js.of_Z v * (1 - 0.3)
     + (0 + 0 + Js.of_Z v * (-1) + 0 + Js.of_Z v * (-1) + Js.of_Z v * 5
        + Js.of_Z v * (-1) + 0 + Js.of_Z v * (-1) + 0) * 0.3))) =? v)%Z);
    [by vm_compute|done].
Qed.

(** At the default strength 0.3 the edge enhancer leaves flat regions
    alone: an interior pixel whose red value [v] is also that of its four
    orthogonal neighbours comes out as (v, v, v), whatever the four
    corners hold. *)
Theorem edgeEnhance_flat_region img x y v a :
  wf_image img = true → interior (width img) (height img) x y = true →
  red_at img x y = Some v → data img !! (offset (width img) x y + 3)%nat = Some a →
  red_at img x (y - 1) = Some v → red_at img x (y + 1) = Some v →
  red_at img (x - 1) y = Some v → red_at img (x + 1) y = Some v →
  pixel (edgeEnhance img 0.3) x y = Some (v, v, v, a).
Proof.
  intros Hwf Hint Hc Ha Hn Hs Hw He. pose proof (wf_image_length _ Hwf) as Hlen.
  unfold interior in Hint. repeat rewrite andb_true_iff in Hint.
  rewrite !Nat.leb_le, !Nat.ltb_lt in Hint. destruct Hint as [[[Hx1 Hx2] Hy1] Hy2].
  destruct (red_at_wf img (x - 1) (y - 1) Hwf) as (c1 & Hc1 & Hb1); [lia..|].
  destruct (red_at_wf img (x + 1) (y - 1) Hwf) as (c2 & Hc2 & Hb2); [lia..|].
  destruct (red_at_wf img (x - 1) (y + 1) Hwf) as (c3 & Hc3 & Hb3); [lia..|].
  destruct (red_at_wf img (x + 1) (y + 1) Hwf) as (c4 & Hc4 & Hb4); [lia..|].
  assert (is_byte v = true) as Hv by (by eapply (wf_image_byte img)).
  assert (Js.ToUint8Clamp (edgeEnhance_value (data img) 0.3 (width img) x y) = v)
    as Hval.
  { unfold edgeEnhance_value. rewrite kernel_sum_neighbourhood.
    unfold neighbourhood_sum.
    rewrite (lum_at_red _ _ _ _ Hc1), (lum_at_red _ _ _ _ Hc2),
      (lum_at_red _ _ _ _ Hc3), (lum_at_red _ _ _ _ Hc4),
      (lum_at_red _ _ _ _ Hn), (lum_at_red _ _ _ _ Hs),
      (lum_at_red _ _ _ _ Hw), (lum_at_red _ _ _ _ He),
      (lum_at_red _ _ _ _ Hc).
    change (get (data img) (offset (width img) x y)) with (lum_at img x y).
    rewrite (lum_at_red _ _ _ _ Hc), !corner_term by done.
    by apply flat_blend. }
  apply pixel_cells. intros c Hc4'.
  change (width (edgeEnhance img 0.3)) with (width img).
  rewrite edgeEnhance_lookup by (done || lia).
  destruct (decide (c < 3)%nat).
  - rewrite decide_True by lia. rewrite Hval. by destruct c as [|[|[|c]]]; [..|lia].
  - rewrite decide_False by lia. assert (c = 3)%nat as -> by lia. done.
Qed.

Lemma edgeEnhance_flat_region_witness :
  pixel (edgeEnhance
    (mkImageData 3 3
       [1; 0; 0; 255;  77; 0; 0; 255;  2; 0; 0; 255;
        77; 0; 0; 255; 77; 5; 6; 9;    77; 0; 0; 255;
        3; 0; 0; 255;  77; 0; 0; 255;  4; 0; 0; 255]%Z) 0.3) 1 1
  = Some (77, 77, 77, 9)%Z.
Proof. apply edgeEnhance_flat_region; reflexivity. Defined.

(** * The photo gallery ([src/gallery.js]) *)

Module Gallery.

Record photo := mkPhoto {
  id : string;
  dataUrl : string;
  palette : string;
  timestamp : Z
}.

Definition STORAGE_KEY : string := "ca_mera_photos".

(** What [JSON.parse] returns on the stored text: an array of photo
    records, or some other value (a number, [null], an object ...).  Text
    that parses to an array of something else is outside this model. *)
Inductive json :=
| Photos (photos : list photo)
| Other.

Inductive error :=
| QuotaExceededError   (* thrown by [localStorage.setItem] *)
| TypeError.           (* a method called on a value that has none *)

Section storage.

(** [JSON.parse], [None] when it throws, and [JSON.stringify]. *)
Variable JSON_parse : string → option json.
Variable JSON_stringify : list photo → string.
(** Whether the browser has room for the new content of the store. *)
Variable fits : gmap string string → bool.

Definition setItem (localStorage : gmap string string) (key value : string)
    : error + gmap string string :=
  let store := <[key := value]> localStorage in
  if fits store then inr store else inl QuotaExceededError.

(** The empty string and [null] are both falsy; the [catch] turns a parse
    error into the empty list. *)
Definition getPhotos (localStorage : gmap string string) : json :=
  match localStorage !! STORAGE_KEY with
  | None => Photos []
  | Some raw =>
      if String.eqb raw "" then Photos []
      else match JSON_parse raw with
           | Some value => value
           | None => Photos []
           end
  end.

(** [dataUrl] is what [toDataURL] gave for the canvas, [now] and [now'] the
    two readings of [Date.now()], [random] the four characters taken from
    [Math.random().toString(36)]. *)
Definition savePhoto (localStorage : gmap string string) (dataUrl palette : string)
    (now : Z) (random : string) (now' : Z) : error + (string * gmap string string) :=
  match getPhotos localStorage with
  | Other => inl TypeError
  | Photos photos =>
      let photo :=
        mkPhoto ("photo_" +:+ pretty now +:+ "_" +:+ random) dataUrl palette now' in
      let photos := photo :: photos in
      let photos := if (30 <? length photos)%nat then removelast photos else photos in
      match setItem localStorage STORAGE_KEY (JSON_stringify photos) with
      | inl e => inl e
      | inr store => inr (id photo, store)
      end
  end.

Definition deletePhoto (localStorage : gmap string string) (i : string)
    : error + gmap string string :=
  match getPhotos localStorage with
  | Other => inl TypeError
  | Photos photos =>
      let photos := filter (λ p, id p ≠ i) photos in
      setItem localStorage STORAGE_KEY (JSON_stringify photos)
  end.

(** The text written for [photos] reads back as [photos]. *)
Definition readable (photos : list photo) : Prop :=
  JSON_stringify photos ≠ "" ∧ JSON_parse (JSON_stringify photos) = Some (Photos photos).

Lemma getPhotos_written localStorage photos :
  readable photos →
  getPhotos (<[STORAGE_KEY := JSON_stringify photos]> localStorage) = Photos photos.
Proof.
  intros [Hne Hrt]. unfold getPhotos. rewrite lookup_insert_eq.
  destruct (String.eqb_spec (JSON_stringify photos) ""); [done|]. by rewrite Hrt.
Qed.

Lemma filter_all {A} (P : A → Prop) `{∀ x, Decision (P x)} (l : list A) :
  Forall P l → filter P l = l.
Proof.
  induction 1 as [|x l Hx Hl IH]; [done|]. by rewrite filter_cons_True, IH.
Qed.

Lemma removelast_cons_length {A} (x : A) l :
  l ≠ [] → removelast (x :: l) = x :: removelast l ∧ length (removelast l) = pred (length l).
Proof.
  intros Hl. split; [by destruct l|].
  induction l as [|y l IH]; [done|]. destruct l as [|z l]; [done|].
  cbn [removelast length] in *. rewrite IH by done. done.
Qed.

(** [savePhoto] puts the new photo first and keeps the others in order; a
    gallery of 30 or more loses its last (oldest) photo, so a gallery of at
    most 30 photos never grows beyond 30.  The identifier returned is that
    of the new photo. *)
Theorem savePhoto_newest_first localStorage old dataUrl palette now random now' :
  let photo := mkPhoto ("photo_" +:+ pretty now +:+ "_" +:+ random) dataUrl palette now' in
  let kept := photo :: (if (30 <=? length old)%nat then removelast old else old) in
  getPhotos localStorage = Photos old →
  fits (<[STORAGE_KEY := JSON_stringify kept]> localStorage) = true →
  readable kept →
  ∃ store,
    savePhoto localStorage dataUrl palette now random now' = inr (id photo, store) ∧
    getPhotos store = Photos kept ∧
    (length old ≤ 30 → length kept ≤ 30)%nat.
Proof.
  intros photo kept Hold Hfits Hread.
  assert ((if (30 <? length (photo :: old))%nat
           then removelast (photo :: old) else photo :: old) = kept) as Hkept.
  { unfold kept. cbn [length].
    destruct (30 <=? length old)%nat eqn:Hfull.
    - apply Nat.leb_le in Hfull.
      assert ((30 <? S (length old))%nat = true) as -> by (apply Nat.ltb_lt; lia).
      apply removelast_cons_length. intros ->. cbn in Hfull. lia.
    - apply Nat.leb_gt in Hfull.
      by assert ((30 <? S (length old))%nat = false) as -> by (apply Nat.ltb_ge; lia). }
  exists (<[STORAGE_KEY := JSON_stringify kept]> localStorage). split; [|split].
  - unfold savePhoto. rewrite Hold. cbv zeta. fold photo. rewrite Hkept.
    unfold setItem. by rewrite Hfits.
  - by apply getPhotos_written.
  - intros Hlen. unfold kept. cbn [length].
    destruct (30 <=? length old)%nat eqn:Hfull.
    + apply Nat.leb_le in Hfull.
      destruct (removelast_cons_length photo old) as [_ ->];
        [intros ->; cbn in Hfull; lia|]. lia.
    + apply Nat.leb_gt in Hfull. lia.
Qed.

(** [deletePhoto] removes every photo with the given identifier and keeps
    the others in order; an identifier no photo has leaves the list as it
    was. *)
Theorem deletePhoto_filters localStorage old i :
  let kept := filter (λ p, id p ≠ i) old in
  getPhotos localStorage = Photos old →
  fits (<[STORAGE_KEY := JSON_stringify kept]> localStorage) = true →
  readable kept →
  ∃ store,
    deletePhoto localStorage i = inr store ∧
    getPhotos store = Photos kept ∧
    (i ∉ id <$> kept) ∧
    (i ∉ id <$> old → kept = old).
Proof.
  intros kept Hold Hfits Hread.
  exists (<[STORAGE_KEY := JSON_stringify kept]> localStorage).
  split; [|split; [|split]].
  - unfold deletePhoto. rewrite Hold. cbv zeta. fold kept. unfold setItem.
    by rewrite Hfits.
  - by apply getPhotos_written.
  - intros (p & Hp & Hin)%list_elem_of_fmap. unfold kept in Hin.
    apply list_elem_of_filter in Hin as [Hne _]. by apply Hne.
  - intros Hout. unfold kept. apply filter_all, Forall_forall.
    intros p Hp E. apply Hout. rewrite <- E. by apply list_elem_of_fmap_2.
Qed.

(** Saving a photo and deleting it again gives back the gallery there was,
    when the gallery held fewer than 30 photos and none with the new
    identifier. *)
Theorem save_then_delete localStorage old dataUrl palette now random now' store :
  let photo := mkPhoto ("photo_" +:+ pretty now +:+ "_" +:+ random) dataUrl palette now' in
  getPhotos localStorage = Photos old →
  (length old < 30)%nat → id photo ∉ id <$> old →
  savePhoto localStorage dataUrl palette now random now' = inr (id photo, store) →
  readable (photo :: old) → readable old →
  fits (<[STORAGE_KEY := JSON_stringify old]> store) = true →
  ∃ store',
    deletePhoto store (id photo) = inr store' ∧ getPhotos store' = Photos old.
Proof.
  intros photo Hold Hlen Hfresh Hsave Hread1 Hread2 Hfits.
  assert (getPhotos store = Photos (photo :: old)) as Hstore.
  { unfold savePhoto in Hsave. rewrite Hold in Hsave. cbv zeta in Hsave.
    fold photo in Hsave. cbn [length] in Hsave.
    assert ((30 <? S (length old))%nat = false) as Hnot by (apply Nat.ltb_ge; lia).
    rewrite Hnot in Hsave. unfold setItem in Hsave.
    destruct (fits _); [|done]. injection Hsave as <-.
    by apply getPhotos_written. }
  assert (filter (λ p, id p ≠ id photo) (photo :: old) = old) as Hfilter.
  { rewrite filter_cons_False by (intros H; by apply H).
    apply filter_all, Forall_forall.
    intros p Hp E. apply Hfresh. rewrite <- E. by apply list_elem_of_fmap_2. }
  exists (<[STORAGE_KEY := JSON_stringify old]> store). split.
  - unfold deletePhoto. rewrite Hstore. cbv zeta. rewrite Hfilter. unfold setItem.
    by rewrite Hfits.
  - by apply getPhotos_written.
Qed.

End storage.

Definition sample_photo : photo := mkPhoto "photo_5_ab" "data:x" "classic" 6.
Definition other_photo : photo := mkPhoto "photo_1_zz" "data:y" "noir" 2.

(** Photo number [n] of a gallery of examples. *)
Definition numbered (n : nat) : photo :=
  mkPhoto ("photo_" +:+ pretty (Z.of_nat n) +:+ "_old") "data:y" "noir" (Z.of_nat n).

(** A full gallery: 30 photos, number 0 first. *)
Definition full_gallery : list photo := numbered <$> seq 0 30.

(** Saving into the full gallery: the new photo comes first, photos 0 to 28
    follow in order, photo 29 is dropped and 30 photos remain. *)
Lemma savePhoto_newest_first_witness :
  let parse := λ raw,
    if String.eqb raw "old" then Some (Photos full_gallery)
    else Some (Photos (sample_photo :: (numbered <$> seq 0 29))) in
  ∃ store,
    savePhoto parse (λ _, "new") (λ _, true)
      {[ STORAGE_KEY := "old" ]} "data:x" "classic" 5 "ab" 6
    = inr ("photo_5_ab", store) ∧
    getPhotos parse store = Photos (sample_photo :: (numbered <$> seq 0 29)) ∧
    length (sample_photo :: (numbered <$> seq 0 29)) = 30%nat ∧
    id (numbered 29) ∈ id <$> full_gallery ∧
    id (numbered 29) ∉ id <$> sample_photo :: (numbered <$> seq 0 29).
Proof.
  intros parse.
  destruct (savePhoto_newest_first parse (λ _, "new") (λ _, true)
              {[ STORAGE_KEY := "old" ]} full_gallery "data:x" "classic" 5 "ab" 6)
    as (store & Hsave & Hget & Hlen);
    [reflexivity|reflexivity|split; [discriminate|reflexivity]|].
  exists store. split; [exact Hsave|]. split; [exact Hget|].
  split; [reflexivity|].
  split; apply (bool_decide_unpack _); by vm_compute.
Defined.

Lemma deletePhoto_filters_witness :
  ∃ store,
    deletePhoto
      (λ raw, if String.eqb raw "old" then Some (Photos [sample_photo; other_photo])
              else Some (Photos [other_photo]))
      (λ _, "new") (λ _, true) {[ STORAGE_KEY := "old" ]} "photo_5_ab" = inr store.
Proof.
  destruct (deletePhoto_filters
    (λ raw, if String.eqb raw "old" then Some (Photos [sample_photo; other_photo])
            else Some (Photos [other_photo]))
    (λ _, "new") (λ _, true) {[ STORAGE_KEY := "old" ]}
    [sample_photo; other_photo] "photo_5_ab") as (store & H & _);
    [reflexivity|reflexivity|split; [discriminate|reflexivity]|].
  exists store. exact H.
Defined.

(** Saving into a gallery of two photos and deleting the new photo again:
    the two photos are back, in order. *)
Lemma save_then_delete_witness :
  let old := [other_photo; numbered 7] in
  let parse := λ raw,
    if String.eqb raw "2" then Some (Photos old)
    else if String.eqb raw "3" then Some (Photos (sample_photo :: old))
    else Some (Photos []) in
  let stringify := λ photos : list photo, pretty (Z.of_nat (length photos)) in
  let store := <[STORAGE_KEY := "3"]> ({[ STORAGE_KEY := "2" ]} : gmap string string) in
  savePhoto parse stringify (λ _, true) {[ STORAGE_KEY := "2" ]}
    "data:x" "classic" 5 "ab" 6 = inr ("photo_5_ab", store) ∧
  getPhotos parse store = Photos (sample_photo :: old) ∧
  ∃ store',
    deletePhoto parse stringify (λ _, true) store "photo_5_ab" = inr store'
    ∧ getPhotos parse store' = Photos old.
Proof.
  intros old parse stringify store.
  split; [reflexivity|]. split; [reflexivity|].
  apply (save_then_delete parse stringify (λ _, true) {[ STORAGE_KEY := "2" ]}
           old "data:x" "classic" 5 "ab" 6 store);
    [reflexivity|cbn; lia|apply (bool_decide_unpack _); by vm_compute|reflexivity
    |split; [discriminate|reflexivity]|split; [discriminate|reflexivity]|reflexivity].
Defined.

End Gallery.

(** * The orchestrator: what it never does *)

(** With a registered key [processFrame] never throws: whatever the source,
    the canvas and the options (NaN included), it returns an image. *)
Theorem processFrame_returns canvas src paletteKey options :
  paletteKey ∈ registered_keys →
  ∃ out, processFrame canvas src paletteKey options = inr out.
Proof.
  intros Hin. destruct (PALETTES_registered _ Hin) as (p & Hp & Hlen).
  unfold processFrame, getPaletteRgb, PALETTES_get. rewrite Hp. cbn [bind_result].
  eexists. apply ditherAndColorize_inr. by rewrite length_fmap.
Qed.

Lemma processFrame_returns_witness :
  ∃ out,
    processFrame (λ _ img _ _, img) (mkImageData 1 1 [1; 2; 3; 4]%Z) "sunset"
      (mkOptions (Some nan) None) = inr out.
Proof.
  apply processFrame_returns. unfold registered_keys. rewrite !elem_of_cons. auto.
Defined.

(** A call of [processFrame] writes to no object that existed before it:
    the image it returns is a new object, and the source and every other
    object on the heap are as they were. *)
Theorem processFrame_heap_frame canvas (h : heap) source paletteKey options l1 h1 :
  processFrame_heap canvas h source paletteKey options = inr (l1, h1) →
  h !! l1 = None ∧ is_Some (h1 !! l1) ∧ ∀ l, l ≠ l1 → h1 !! l = h !! l.
Proof.
  rewrite processFrame_heap_pure.
  destruct (getPaletteRgb paletteKey) as [e|pal]; [done|]. cbn [bind_result].
  destruct (h !! source) as [img|]; [|done].
  destruct (processFrame canvas img paletteKey options) as [e|out]; [done|].
  cbn [bind_result]. intros [= <- <-]. split; [|split].
  - apply not_elem_of_dom, is_fresh.
  - rewrite lookup_insert_eq. by eexists.
  - intros l Hl. by rewrite lookup_insert_ne.
Qed.

Lemma processFrame_heap_frame_witness :
  let h : heap := {[ 5%nat := mkImageData 1 1 [200; 100; 50; 255]%Z ]} in
  ∃ l1 h1,
    processFrame_heap (λ _ img _ _, img) h 5 "noir" (mkOptions None None) = inr (l1, h1)
    ∧ h !! l1 = None ∧ h1 !! 5%nat = h !! 5%nat.
Proof.
  intros h.
  destruct (processFrame_heap (λ _ img _ _, img) h 5 "noir" (mkOptions None None))
    as [e|[l1 h1]] eqn:Hr; [by vm_compute in Hr|].
  exists l1, h1. split; [done|].
  destruct (processFrame_heap_frame _ h 5%nat "noir" (mkOptions None None) l1 h1 Hr)
    as (Hnew & _ & Hold).
  split; [done|]. apply Hold. intros E. rewrite <- E in Hnew.
  assert (h !! 5%nat = Some (mkImageData 1 1 [200; 100; 50; 255]%Z)) as H5
    by apply lookup_singleton_eq.
  congruence.
Defined.
